(** * Settings resolution and flattening of kakoune-lsp (src/settings.rs)

    A shallow embedding of [settings.rs]: the JSON value model of
    [serde_json], the tree inserter [insert_value], the flattening engine
    [explode_str_to_str_map], the section projector [configured_section],
    the dynamic configuration recorder [record_dynamic_config] and the
    resolution driver [request_initialization_options_from_kakoune].

    The TOML parser, the TOML-to-JSON conversion and the deserialisation of
    the whole configuration blob are library code outside this repository;
    they are kept abstract as section variables.  Calls to [unwrap] and
    [panic!] are modelled as a [Panicked] outcome that carries the context
    as it was when the panic happened. *)

Set Warnings "-register-all".
From Stdlib Require Import List String Ascii ZArith Bool Lia.
Import ListNotations.
Open Scope string_scope.
Open Scope list_scope.

(** ** JSON values ([serde_json::Value]) *)

(** [Str] is [Value::String]; the name [String] is taken by the string
    constructor of the Standard Library.  Numbers are kept as integers. *)
Inductive Value : Type :=
| Null
| Bool (b : bool)
| Number (n : Z)
| Str (s : string)
| Array (l : list Value)
| Object (m : list (string * Value)).

(** [serde_json::Map<String, Value>] as an association list with unique
    keys; [insert] replaces in place and appends fresh keys at the end. *)
Definition Map : Type := list (string * Value).

Fixpoint assoc_get {A : Type} (k : string) (m : list (string * A)) : option A :=
  match m with
  | [] => None
  | (k', v) :: rest => if String.eqb k k' then Some v else assoc_get k rest
  end.

(** [Map::insert]: returns the new map and the value it displaced. *)
Fixpoint map_insert (m : Map) (k : string) (v : Value) : Map * option Value :=
  match m with
  | [] => ([(k, v)], None)
  | (k', v') :: rest =>
      if String.eqb k k' then ((k', v) :: rest, Some v')
      else let (rest', old) := map_insert rest k v in ((k', v') :: rest', old)
  end.

(** [map.entry(k).or_insert_with(d)]: the map after the call and the value
    the returned reference points to. *)
Definition entry_or_insert (m : Map) (k : string) (d : Value) : Map * Value :=
  match assoc_get k m with
  | Some v => (m, v)
  | None => (m ++ [(k, d)], d)
  end.

(** [Value::get] with a string index: only objects have keys. *)
Definition value_get (v : Value) (k : string) : option Value :=
  match v with
  | Object m => assoc_get k m
  | _ => None
  end.

(** ** Tree inserter ([insert_value]) *)

(** The two [Err] strings of [insert_value]:
    ["Expected path {key} to be object, found {..}"] and
    ["Replaced old value: {old}"]. *)
Inductive InsertError : Type :=
| NotAnObject (key : string)
| ReplacedOld (old : Value).

Inductive InsertResult : Type :=
| Ok
| Err (e : InsertError).

(** The mutable [target] is threaded explicitly: the function returns the
    map as it is after the call together with the [Result]. *)
Fixpoint insert_value (target : Map) (path : list string) (local_key : string)
    (value : Value) : Map * InsertResult :=
  match path with
  | key :: path' =>
      let (target1, cur) := entry_or_insert target key (Object []) in
      match cur with
      | Object inner =>
          let (inner', r) := insert_value inner path' local_key value in
          (fst (map_insert target1 key (Object inner')), r)
      | _ => (target1, Err (NotAnObject key))
      end
  | [] =>
      match map_insert target local_key value with
      | (target', Some old_value) => (target', Err (ReplacedOld old_value))
      | (target', None) => (target', Ok)
      end
  end.

(** ** String splitting ([str::split_once], [str::split], [next_back]) *)

Fixpoint split_once (c : ascii) (s : string) : option (string * string) :=
  match s with
  | EmptyString => None
  | String a rest =>
      if Ascii.eqb a c then Some (EmptyString, rest)
      else match split_once c rest with
           | Some (l, r) => Some (String a l, r)
           | None => None
           end
  end.

Fixpoint split (c : ascii) (s : string) : list string :=
  match s with
  | EmptyString => [EmptyString]
  | String a rest =>
      if Ascii.eqb a c then EmptyString :: split c rest
      else match split c rest with
           | x :: xs => String a x :: xs
           | [] => [String a EmptyString]
           end
  end.

(** [key_parts.next_back()]: the last segment and the remaining prefix. *)
Definition next_back (l : list string) : option (string * list string) :=
  match rev l with
  | [] => None
  | x :: r => Some (x, rev r)
  end.

(** A path lookup in a settings tree, used to state properties. *)
Fixpoint lookup_path (m : Map) (path : list string) (leaf : string) : option Value :=
  match path with
  | [] => assoc_get leaf m
  | k :: path' =>
      match assoc_get k m with
      | Some (Object inner) => lookup_path inner path' leaf
      | _ => None
      end
  end.


(** Lookup of a full dotted key, split into its segments. *)
Definition lookup_key (m : Map) (segments : list string) : option Value :=
  match next_back segments with
  | Some (leaf, path) => lookup_path m path leaf
  | None => None
  end.

(** The first segment of [path] at which the walk of [insert_value] meets
    an existing node that is not an object, if any. *)
Fixpoint blocking_segment (m : Map) (path : list string) : option string :=
  match path with
  | [] => None
  | k :: path' =>
      match assoc_get k m with
      | Some (Object inner) => blocking_segment inner path'
      | Some _ => Some k
      | None => None
      end
  end.

(** The walk of [insert_value] along [path] meets only objects or missing
    keys, and the leaf is absent when the walk stays on existing objects. *)
Fixpoint walkable (m : Map) (path : list string) (leaf : string) : Prop :=
  match path with
  | [] => assoc_get leaf m = None
  | k :: path' =>
      match assoc_get k m with
      | Some (Object inner) => walkable inner path' leaf
      | Some _ => False
      | None => True
      end
  end.

(** [walkable] for a full dotted key. *)
Definition walkable_key (m : Map) (segments : list string) : Prop :=
  match next_back segments with
  | Some (leaf, path) => walkable m path leaf
  | None => False
  end.

Fixpoint is_prefix (a b : list string) : bool :=
  match a, b with
  | [], _ => true
  | x :: a', y :: b' => String.eqb x y && is_prefix a' b'
  | _ :: _, [] => false
  end.

(** Two dotted keys do not conflict: neither is a prefix of the other
    (in particular they differ). *)
Definition unrelated (a b : list string) : Prop :=
  is_prefix a b = false /\ is_prefix b a = false.

(** Section projection on plain values: one level of indirection. *)
Definition project (settings : option Value) (section : option string) : option Value :=
  match settings, section with
  | Some t, Some s => value_get t s
  | _, _ => None
  end.

(** The first source that yields a value. *)
Definition first_some (sources : list (option Value)) : option Value :=
  fold_right (fun o acc => match o with Some _ => o | None => acc end) None sources.

(** ** Diagnostics ([warn!]) and host commands ([ctx.exec]) *)

Inductive Warning : Type :=
| WarnEmptyLocalName (raw_key : string)
| WarnParse (raw_value : string)
| WarnConvert (raw_value : string)
| WarnInsert (raw_key raw_value : string) (e : InsertError).

Inductive Command : Type :=
| LspGetConfig
| LspShowError
| LspGetServerInitializationOptions.

(** ** Context, configuration records and the request metadata *)

(** [ServerId] is an index into the table of running servers. *)
Definition ServerId : Type := nat.

(** The fields of [ServerSettings] that [settings.rs] reads or writes. *)
Record ServerSettings : Type := {
  srv_name : string;
  srv_settings : option Value }.

(** The static project configuration of one server ([LanguageServerConfig]):
    [settings] and [settings_section]. *)
Record LanguageServerConfig : Type := {
  cfg_settings : option Value;
  cfg_settings_section : option string }.

(** [DynamicConfig], parsed from [%opt{lsp_config}]. *)
Record DynamicLanguageServerConfig : Type := {
  dyn_settings : option Value;
  dyn_settings_section : option string }.

Record DynamicConfig : Type := {
  language_server : list (string * DynamicLanguageServerConfig) }.

Record Context : Type := {
  server_configs : list (string * LanguageServerConfig);
  is_using_legacy_toml : bool;
  dynamic_config : DynamicConfig;
  language_servers : list (ServerId * ServerSettings);
  route_cache : list ((string * string) * ServerId);
  exec_log : list Command;
  warn_log : list Warning }.

(** Per-request override of one server in [EditorMeta::language_server]. *)
Record MetaServer : Type := {
  meta_root : string;
  meta_settings : option Value }.

Record EditorMeta : Type := {
  session : string;
  meta_language_server : list (string * MetaServer) }.

Fixpoint id_get {A : Type} (k : ServerId) (m : list (ServerId * A)) : option A :=
  match m with
  | [] => None
  | (k', v) :: rest => if Nat.eqb k k' then Some v else id_get k rest
  end.

Fixpoint id_update {A : Type} (k : ServerId) (f : A -> A) (m : list (ServerId * A))
    : list (ServerId * A) :=
  match m with
  | [] => []
  | (k', v) :: rest =>
      if Nat.eqb k k' then (k', f v) :: rest else (k', v) :: id_update k f rest
  end.

Fixpoint route_get (k : string * string) (m : list ((string * string) * ServerId))
    : option ServerId :=
  match m with
  | [] => None
  | ((a, b), v) :: rest =>
      if String.eqb (fst k) a && String.eqb (snd k) b then Some v else route_get k rest
  end.

(** ** A state monad with panics *)

Inductive Outcome (A : Type) : Type :=
| Done (a : A) (ctx : Context)
| Panicked (ctx : Context).
Arguments Done {A} a ctx.
Arguments Panicked {A} ctx.

Definition M (A : Type) : Type := Context -> Outcome A.

Definition ret {A : Type} (a : A) : M A := fun ctx => Done a ctx.

Definition bind {A B : Type} (m : M A) (k : A -> M B) : M B :=
  fun ctx => match m ctx with
             | Done a ctx' => k a ctx'
             | Panicked ctx' => Panicked ctx'
             end.

Notation "x <- m ;; k" := (bind m (fun x => k))
  (at level 61, m at next level, right associativity).
Notation "m ;;; k" := (bind m (fun _ => k))
  (at level 61, right associativity).

Definition get : M Context := fun ctx => Done ctx ctx.
Definition modify (f : Context -> Context) : M unit := fun ctx => Done tt (f ctx).
Definition panic {A : Type} : M A := fun ctx => Panicked ctx.

(** [opt.unwrap()] *)
Definition unwrap {A : Type} (o : option A) : M A :=
  match o with
  | Some a => ret a
  | None => panic
  end.

Definition with_exec_log (ctx : Context) (l : list Command) : Context :=
  {| server_configs := server_configs ctx; is_using_legacy_toml := is_using_legacy_toml ctx;
     dynamic_config := dynamic_config ctx; language_servers := language_servers ctx;
     route_cache := route_cache ctx; exec_log := l; warn_log := warn_log ctx |}.

Definition with_warn_log (ctx : Context) (l : list Warning) : Context :=
  {| server_configs := server_configs ctx; is_using_legacy_toml := is_using_legacy_toml ctx;
     dynamic_config := dynamic_config ctx; language_servers := language_servers ctx;
     route_cache := route_cache ctx; exec_log := exec_log ctx; warn_log := l |}.

Definition with_dynamic_config (ctx : Context) (d : DynamicConfig) : Context :=
  {| server_configs := server_configs ctx; is_using_legacy_toml := is_using_legacy_toml ctx;
     dynamic_config := d; language_servers := language_servers ctx;
     route_cache := route_cache ctx; exec_log := exec_log ctx; warn_log := warn_log ctx |}.

Definition with_language_servers (ctx : Context) (l : list (ServerId * ServerSettings))
    : Context :=
  {| server_configs := server_configs ctx; is_using_legacy_toml := is_using_legacy_toml ctx;
     dynamic_config := dynamic_config ctx; language_servers := l;
     route_cache := route_cache ctx; exec_log := exec_log ctx; warn_log := warn_log ctx |}.

(** [ctx.exec(meta, cmd)]: the command is sent to the editor. *)
Definition exec (c : Command) : M unit :=
  modify (fun ctx => with_exec_log ctx (exec_log ctx ++ [c])).

(** [ctx.server(server_id)]: indexing the server table. *)
Definition server (server_id : ServerId) : M ServerSettings :=
  ctx <- get ;; unwrap (id_get server_id (language_servers ctx)).

Definition count_legacy_requests (log : list Command) : nat :=
  List.length (filter (fun c => match c with
                           | LspGetServerInitializationOptions => true
                           | _ => false
                           end) log).

(** [warn!]: diagnostics appended to the log. *)
Definition warn_all (log : list Warning) : M unit :=
  modify (fun ctx => with_warn_log ctx (warn_log ctx ++ log)).

(** How a call of the flattening loop ends. *)
Inductive ExplodeOutcome : Type :=
| Exploded (settings : Map) (log : list Warning)
| ExplodePanicked (log : list Warning).

Section Settings.

(** The TOML library: [toml::from_str] into a [toml::Value] and the
    conversion [toml_value.try_into()] into a JSON value. *)
Variable TomlValue : Type.
Variable toml_from_str : string -> option TomlValue.
Variable toml_try_into : TomlValue -> option Value.

(** ** Flattening engine ([explode_str_to_str_map]) *)

(** The [for] loop over the entries.  The warnings ([warn!]) are collected
    in emission order; [ExplodePanicked] is the panic of
    [split_once('=').unwrap()], with the warnings emitted before it. *)
Fixpoint explode_loop (entries : list string) (settings : Map) (log : list Warning)
    : ExplodeOutcome :=
  match entries with
  | [] => Exploded settings log
  | map_entry :: rest =>
      match split_once "=" map_entry with
      | None => ExplodePanicked log
      | Some (raw_key, raw_value) =>
          match next_back (split "." raw_key) with
          | None => explode_loop rest settings (log ++ [WarnEmptyLocalName raw_key])
          | Some (local_key, key_parts) =>
              match toml_from_str raw_value with
              | None => explode_loop rest settings (log ++ [WarnParse raw_value])
              | Some toml_value =>
                  match toml_try_into toml_value with
                  | None => explode_loop rest settings (log ++ [WarnConvert raw_value])
                  | Some value =>
                      let (settings', r) := insert_value settings key_parts local_key value in
                      match r with
                      | Ok => explode_loop rest settings' log
                      | Err e =>
                          explode_loop rest settings' (log ++ [WarnInsert raw_key raw_value e])
                      end
                  end
              end
          end
      end
  end.

(** The map the call returns, with the warnings it emitted; [None] when
    it panics. *)
Definition explode_str_to_str_map (map : list string) : option (Map * list Warning) :=
  match explode_loop map [] [] with
  | Exploded m log => Some (m, log)
  | ExplodePanicked _ => None
  end.

(** The call with its effects: each warning reaches the log when it is
    emitted, so a panic keeps the warnings of the entries before it. *)
Definition explode_str_to_str_map_call (map : list string) : M Map :=
  match explode_loop map [] [] with
  | Exploded m log => warn_all log ;;; ret m
  | ExplodePanicked log => warn_all log ;;; panic
  end.


(** [toml::from_str] into [DynamicConfig] for the whole [%opt{lsp_config}]. *)
Variable parse_dynamic_config : string -> option DynamicConfig.

(** What the editor writes to the fifo: the text of [%opt{lsp_config}] for
    [lsp-get-config], and the tokens read back by [ParserState::next] for
    [lsp-get-server-initialization-options]. *)
Variable host_lsp_config : string.
Variable host_initialization_options : list string.

(** ** Section projector ([configured_section]) *)

Definition configured_section (meta : EditorMeta) (server_id : ServerId)
    (settings : option Value) : M (option Value) :=
  srv <- server server_id ;;
  ctx <- get ;;
  ret (match settings with
       | None => None
       | Some settings =>
           match assoc_get (srv_name srv) (server_configs ctx) with
           | None => None
           | Some cfg =>
               match cfg_settings_section cfg with
               | None => None
               | Some section => value_get settings section
               end
           end
       end).

(** ** Dynamic configuration recorder ([record_dynamic_config]) *)

Definition set_server_settings (server_id : ServerId) (s : option Value) : M unit :=
  ctx <- get ;;
  _ <- unwrap (id_get server_id (language_servers ctx)) ;;
  modify (fun ctx => with_language_servers ctx
    (id_update server_id
       (fun srv => {| srv_name := srv_name srv; srv_settings := s |})
       (language_servers ctx))).

Fixpoint apply_meta_overrides (servers : list (string * MetaServer)) : M unit :=
  match servers with
  | [] => ret tt
  | (server_name, srv) :: rest =>
      ctx <- get ;;
      server_id <- unwrap (route_get (server_name, meta_root srv) (route_cache ctx)) ;;
      set_server_settings server_id (meta_settings srv) ;;;
      apply_meta_overrides rest
  end.

Definition record_dynamic_config (meta : EditorMeta) (config : string) : M unit :=
  match parse_dynamic_config config with
  | Some cfg => modify (fun ctx => with_dynamic_config ctx cfg)
  | None => exec LspShowError ;;; panic
  end ;;;
  ctx <- get ;;
  if negb (is_using_legacy_toml ctx)
  then apply_meta_overrides (meta_language_server meta)
  else ret tt.

Definition request_dynamic_configuration_from_kakoune (meta : EditorMeta) : M unit :=
  exec LspGetConfig ;;;
  record_dynamic_config meta host_lsp_config.

(** ** Legacy override ([request_legacy_initialization_options_from_kakoune]) *)

Fixpoint take_while {A : Type} (p : A -> bool) (l : list A) : list A :=
  match l with
  | [] => []
  | x :: xs => if p x then x :: take_while p xs else []
  end.

Definition request_legacy_initialization_options_from_kakoune (meta : EditorMeta)
    : M (option Value) :=
  exec LspGetServerInitializationOptions ;;;
  let server_configuration :=
    take_while (fun s => negb (String.eqb s "map-end")) host_initialization_options in
  match server_configuration with
  | [] => ret None
  | _ =>
      m <- explode_str_to_str_map_call server_configuration ;;
      ret (Some (Object m))
  end.

(** ** Resolution driver ([request_initialization_options_from_kakoune]) *)

(** One iteration of the [for] loop. *)
Definition resolve_server (meta : EditorMeta) (server_id : ServerId) : M (option Value) :=
  srv <- server server_id ;;
  ctx <- get ;;
  let settings :=
    match assoc_get (srv_name srv) (language_server (dynamic_config ctx)) with
    | Some v => dyn_settings v
    | None => None
    end in
  settings <- configured_section meta server_id settings ;;
  match settings with
  | Some _ => ret settings
  | None =>
      legacy_settings <- request_legacy_initialization_options_from_kakoune meta ;;
      match legacy_settings with
      | Some _ => ret legacy_settings
      | None =>
          srv <- server server_id ;;
          ctx <- get ;;
          server_config <- unwrap (assoc_get (srv_name srv) (server_configs ctx)) ;;
          configured_section meta server_id (cfg_settings server_config)
      end
  end.

Fixpoint resolve_servers (meta : EditorMeta) (servers : list ServerId)
    : M (list (option Value)) :=
  match servers with
  | [] => ret []
  | server_id :: rest =>
      s <- resolve_server meta server_id ;;
      sections <- resolve_servers meta rest ;;
      ret (s :: sections)
  end.

Definition request_initialization_options_from_kakoune (servers : list ServerId)
    (meta : EditorMeta) : M (list (option Value)) :=
  request_dynamic_configuration_from_kakoune meta ;;;
  resolve_servers meta servers.


(** ** Derived notions used to state the properties *)

(** An entry of the legacy sequence that passes [split_once], the TOML
    parse and the conversion: its key segments and its value. *)
Definition parse_entry (map_entry : string) : option (list string * Value) :=
  match split_once "=" map_entry with
  | Some (raw_key, raw_value) =>
      match toml_from_str raw_value with
      | Some t =>
          match toml_try_into t with
          | Some v => Some (split "." raw_key, v)
          | None => None
          end
      | None => None
      end
  | None => None
  end.

Definition legacy_tokens : list string :=
  take_while (fun s => negb (String.eqb s "map-end")) host_initialization_options.

(** The value the legacy source yields when the flattening does not panic. *)
Definition legacy_override : option Value :=
  match legacy_tokens with
  | [] => None
  | _ =>
      match explode_str_to_str_map legacy_tokens with
      | Some (m, _) => Some (Object m)
      | None => None
      end
  end.

Definition legacy_warnings : list Warning :=
  match legacy_tokens with
  | [] => []
  | _ =>
      match explode_str_to_str_map legacy_tokens with
      | Some (_, log) => log
      | None => []
      end
  end.

Definition section_name (ctx : Context) (name : string) : option string :=
  match assoc_get name (server_configs ctx) with
  | Some cfg => cfg_settings_section cfg
  | None => None
  end.

Definition dynamic_settings (ctx : Context) (name : string) : option Value :=
  match assoc_get name (language_server (dynamic_config ctx)) with
  | Some v => dyn_settings v
  | None => None
  end.

Definition dynamic_projection (ctx : Context) (server_id : ServerId) : option Value :=
  match id_get server_id (language_servers ctx) with
  | Some srv => project (dynamic_settings ctx (srv_name srv)) (section_name ctx (srv_name srv))
  | None => None
  end.

Definition static_projection (ctx : Context) (server_id : ServerId) : option Value :=
  match id_get server_id (language_servers ctx) with
  | Some srv =>
      match assoc_get (srv_name srv) (server_configs ctx) with
      | Some cfg => project (cfg_settings cfg) (section_name ctx (srv_name srv))
      | None => None
      end
  | None => None
  end.

(** The fallback chain: dynamic, then legacy, then static. *)
Definition resolve_one (ctx : Context) (server_id : ServerId) : option Value :=
  first_some [dynamic_projection ctx server_id; legacy_override; static_projection ctx server_id].

(** The context after one legacy request. *)
Definition after_legacy (ctx : Context) : Context :=
  with_warn_log (with_exec_log ctx (exec_log ctx ++ [LspGetServerInitializationOptions]))
    (warn_log ctx ++ legacy_warnings).

End Settings.

(** ** Concrete instances used for examples and witnesses *)

(** A model of [toml::from_str] into a [toml::Value] on a fragment of TOML.
    The input is parsed as a whole document, so the result is always a
    table, here already in its JSON form: lines [key = value] with a bare
    key and a decimal integer or boolean value, blank lines, and spaces or
    tabs around the parts.  A bare value such as [1] or [true] is not a
    document and is rejected, as is a repeated key.  Documents outside the
    fragment (strings, dotted keys, comments, ...) are rejected too; the
    examples below use none of them. *)
Fixpoint digits_value (s : string) (acc : Z) : option Z :=
  match s with
  | EmptyString => Some acc
  | String c rest =>
      let n := (Z.of_nat (nat_of_ascii c) - 48)%Z in
      if (0 <=? n)%Z && (n <=? 9)%Z then digits_value rest (10 * acc + n)%Z else None
  end.

(** A TOML integer has no leading zero. *)
Definition toml_scalar (s : string) : option Value :=
  if String.eqb s "true" then Some (Bool true)
  else if String.eqb s "false" then Some (Bool false)
  else match s with
       | EmptyString => None
       | String c rest =>
           if Ascii.eqb c "0"
           then match rest with EmptyString => Some (Number 0) | _ => None end
           else option_map Number (digits_value s 0)
       end.

Definition is_toml_space (c : ascii) : bool :=
  Ascii.eqb c " " || Ascii.eqb c (ascii_of_nat 9).

Fixpoint trim_left (l : list ascii) : list ascii :=
  match l with
  | c :: rest => if is_toml_space c then trim_left rest else l
  | [] => []
  end.

Definition trim (s : string) : string :=
  string_of_list_ascii (rev (trim_left (rev (trim_left (list_ascii_of_string s))))).

(** Bare keys: [A-Za-z0-9_-]+. *)
Definition is_bare_key_char (c : ascii) : bool :=
  let n := nat_of_ascii c in
  (Nat.leb 65 n && Nat.leb n 90) || (Nat.leb 97 n && Nat.leb n 122) ||
  (Nat.leb 48 n && Nat.leb n 57) || Nat.eqb n 95 || Nat.eqb n 45.

Definition is_bare_key (s : string) : bool :=
  negb (String.eqb s "") && forallb is_bare_key_char (list_ascii_of_string s).

Fixpoint toml_lines (lines : list string) (acc : Map) : option Map :=
  match lines with
  | [] => Some acc
  | line :: rest =>
      let l := trim line in
      if String.eqb l "" then toml_lines rest acc
      else match split_once "=" l with
           | None => None
           | Some (k, v) =>
               let k := trim k in
               if is_bare_key k then
                 match assoc_get k acc, toml_scalar (trim v) with
                 | None, Some x => toml_lines rest (acc ++ [(k, x)])
                 | _, _ => None
                 end
               else None
           end
  end.

Definition toml_doc_from_str (s : string) : option Value :=
  option_map Object (toml_lines (split (ascii_of_nat 10) s) []).

(** [try_into::<serde_json::Value>] on the fragment: the table is already
    in its JSON form. *)
Definition toml_doc_try_into (v : Value) : option Value := Some v.

Definition empty_dynamic_config : DynamicConfig := {| language_server := [] |}.

Definition rls_dynamic_config : DynamicConfig :=
  {| language_server :=
       [("rls", {| dyn_settings := Some (Object [("rust", Number 1)]);
                   dyn_settings_section := None |})] |}.

(** The TOML text of [rls_dynamic_config]. *)
Definition rls_config_text : string :=
  String.append "[language_server.rls.settings]" (String (ascii_of_nat 10) "rust = 1").

(** [toml::from_str] into [DynamicConfig] on two documents: the empty one
    and [rls_config_text]; every other text is rejected (the examples only
    pass it texts that are not TOML documents, such as [not toml]). *)
Definition toy_parse_config (s : string) : option DynamicConfig :=
  if String.eqb s "" then Some empty_dynamic_config
  else if String.eqb s rls_config_text then Some rls_dynamic_config
  else None.

Definition flatten_doc (entries : list string) : option (Map * list Warning) :=
  explode_str_to_str_map Value toml_doc_from_str toml_doc_try_into entries.

(** Two registered servers: [rls] (id 0), whose static settings are read
    through the section [rust], and [pyls] (id 1), with no static settings. *)
Definition rls_config : LanguageServerConfig :=
  {| cfg_settings := Some (Object [("rust", Number 5)]); cfg_settings_section := Some "rust" |}.

Definition pyls_config : LanguageServerConfig :=
  {| cfg_settings := None; cfg_settings_section := None |}.

Definition ctx_two : Context :=
  {| server_configs := [("rls", rls_config); ("pyls", pyls_config)];
     is_using_legacy_toml := false;
     dynamic_config := empty_dynamic_config;
     language_servers := [(0, {| srv_name := "rls"; srv_settings := None |});
                          (1, {| srv_name := "pyls"; srv_settings := None |})];
     route_cache := [];
     exec_log := [];
     warn_log := [] |}.

Definition meta0 : EditorMeta := {| session := "session"; meta_language_server := [] |}.

(** [ctx_two] with the route of [rls] at root ["/p"] cached as server 0,
    and a request that overrides the settings of that server. *)
Definition ctx_routed : Context :=
  {| server_configs := server_configs ctx_two;
     is_using_legacy_toml := false;
     dynamic_config := empty_dynamic_config;
     language_servers := language_servers ctx_two;
     route_cache := [(("rls", "/p"), 0)];
     exec_log := [];
     warn_log := [] |}.

Definition meta_rls : EditorMeta :=
  {| session := "session";
     meta_language_server := [("rls", {| meta_root := "/p"; meta_settings := Some (Number 7) |})] |}.

(** A request naming a server at a root that has no cached route. *)
Definition meta_unrouted : EditorMeta :=
  {| session := "session";
     meta_language_server := [("rls", {| meta_root := "/q"; meta_settings := None |})] |}.

(** [ctx_two] in the legacy configuration mode. *)
Definition ctx_legacy : Context :=
  {| server_configs := server_configs ctx_two;
     is_using_legacy_toml := true;
     dynamic_config := empty_dynamic_config;
     language_servers := language_servers ctx_two;
     route_cache := [];
     exec_log := [];
     warn_log := [] |}.

(** * Properties *)

(** ** Monad lemmas *)

Lemma bind_Done {A B : Type} (m : M A) (k : A -> M B) (ctx ctx' : Context) (a : A) :
  m ctx = Done a ctx' -> bind m k ctx = k a ctx'.
Proof. intros H; unfold bind; rewrite H; reflexivity. Qed.

Lemma bind_Panicked {A B : Type} (m : M A) (k : A -> M B) (ctx ctx' : Context) :
  m ctx = Panicked ctx' -> bind m k ctx = Panicked ctx'.
Proof. intros H; unfold bind; rewrite H; reflexivity. Qed.

Lemma get_spec (ctx : Context) : get ctx = Done ctx ctx.
Proof. reflexivity. Qed.

Lemma ret_spec {A : Type} (a : A) (ctx : Context) : ret a ctx = Done a ctx.
Proof. reflexivity. Qed.

Lemma server_spec (server_id : ServerId) (ctx : Context) (srv : ServerSettings) :
  id_get server_id (language_servers ctx) = Some srv -> server server_id ctx = Done srv ctx.
Proof. intros H; unfold server, bind, get, unwrap; simpl; rewrite H; reflexivity. Qed.

(** ** Association-list lemmas *)

Lemma map_insert_old (m : Map) (k : string) (v : Value) :
  snd (map_insert m k v) = assoc_get k m.
Proof.
  induction m as [|[k' v'] rest IH]; simpl; [reflexivity|].
  destruct (String.eqb k k'); [reflexivity|].
  destruct (map_insert rest k v) as [rest' old]; exact IH.
Qed.

Lemma map_insert_get_same (m : Map) (k : string) (v : Value) :
  assoc_get k (fst (map_insert m k v)) = Some v.
Proof.
  induction m as [|[k' v'] rest IH]; simpl.
  - rewrite String.eqb_refl; reflexivity.
  - destruct (String.eqb k k') eqn:E; simpl.
    + rewrite E; reflexivity.
    + destruct (map_insert rest k v) as [rest' old] eqn:Ei; simpl in *.
      rewrite E; exact IH.
Qed.

Lemma map_insert_get_other (m : Map) (k k2 : string) (v : Value) :
  k2 <> k -> assoc_get k2 (fst (map_insert m k v)) = assoc_get k2 m.
Proof.
  intros Hne; induction m as [|[k' v'] rest IH]; simpl.
  - apply String.eqb_neq in Hne; rewrite Hne; reflexivity.
  - destruct (String.eqb k k') eqn:E; simpl.
    + apply String.eqb_eq in E; subst k'.
      apply String.eqb_neq in Hne; rewrite Hne; reflexivity.
    + destruct (map_insert rest k v) as [rest' old] eqn:Ei; simpl in *.
      destruct (String.eqb k2 k'); [reflexivity|exact IH].
Qed.

Lemma map_insert_same (m : Map) (k : string) (v : Value) :
  assoc_get k m = Some v -> fst (map_insert m k v) = m.
Proof.
  induction m as [|[k' v'] rest IH]; simpl; [discriminate|].
  destruct (String.eqb k k') eqn:E.
  - intros H; inversion H; subst; apply String.eqb_eq in E; subst; reflexivity.
  - intros H; destruct (map_insert rest k v) as [rest' old] eqn:Ei; simpl in *.
    rewrite IH by exact H; reflexivity.
Qed.

Lemma assoc_get_app_fresh (m : Map) (k k2 : string) (d : Value) :
  assoc_get k m = None ->
  assoc_get k2 (m ++ [(k, d)]) = if String.eqb k2 k then Some d else assoc_get k2 m.
Proof.
  intros Hk; induction m as [|[k' v'] rest IH]; simpl in *.
  - destruct (String.eqb k2 k); reflexivity.
  - destruct (String.eqb k k') eqn:E; [discriminate|].
    destruct (String.eqb k2 k') eqn:E2.
    + apply String.eqb_eq in E2; subst k'.
      destruct (String.eqb k2 k) eqn:E3; [|reflexivity].
      apply String.eqb_eq in E3; subst; rewrite String.eqb_refl in E; discriminate.
    + apply IH; exact Hk.
Qed.

Lemma entry_or_insert_present (m : Map) (k : string) (d v : Value) :
  assoc_get k m = Some v -> entry_or_insert m k d = (m, v).
Proof. unfold entry_or_insert; intros H; rewrite H; reflexivity. Qed.

Lemma entry_or_insert_absent (m : Map) (k : string) (d : Value) :
  assoc_get k m = None -> entry_or_insert m k d = (m ++ [(k, d)], d).
Proof. unfold entry_or_insert; intros H; rewrite H; reflexivity. Qed.

Lemma map_insert_app_fresh (m : Map) (k : string) (d v : Value) :
  assoc_get k m = None -> fst (map_insert (m ++ [(k, d)]) k v) = m ++ [(k, v)].
Proof.
  intros Hk; induction m as [|[k' v'] rest IH]; simpl in *.
  - rewrite String.eqb_refl; reflexivity.
  - destruct (String.eqb k k'); [discriminate|].
    destruct (map_insert (rest ++ [(k, d)]) k v) as [r o] eqn:Ei; simpl in *.
    rewrite IH by exact Hk; reflexivity.
Qed.

(** ** The tree inserter *)


Lemma insert_value_blocked (m : Map) (path : list string) (leaf : string)
    (v : Value) (k : string) :
  blocking_segment m path = Some k ->
  insert_value m path leaf v = (m, Err (NotAnObject k)).
Proof.
  revert m; induction path as [|k0 path' IH]; intros m Hb; simpl in *; [discriminate|].
  destruct (assoc_get k0 m) as [v0|] eqn:Hk; [|discriminate].
  rewrite (entry_or_insert_present _ _ _ _ Hk).
  destruct v0; try (inversion Hb; subst; reflexivity).
  rewrite (IH _ Hb); simpl; rewrite map_insert_same by exact Hk; reflexivity.
Qed.

Lemma insert_value_nil_ok (path : list string) (leaf : string) (v : Value) :
  snd (insert_value [] path leaf v) = Ok.
Proof.
  induction path as [|k path' IH]; simpl; [reflexivity|].
  destruct (insert_value [] path' leaf v) as [inner' r]; simpl in *; exact IH.
Qed.

Lemma walkable_nil (path : list string) (leaf : string) : walkable [] path leaf.
Proof. destruct path; simpl; [reflexivity|exact I]. Qed.

Lemma lookup_path_nil (path : list string) (leaf : string) : lookup_path [] path leaf = None.
Proof. destruct path; reflexivity. Qed.

Lemma insert_value_walkable_ok (m : Map) (path : list string) (leaf : string) (v : Value) :
  walkable m path leaf ->
  exists m', insert_value m path leaf v = (m', Ok) /\ lookup_path m' path leaf = Some v.
Proof.
  revert m; induction path as [|k path' IH]; intros m Hw; simpl in *.
  - pose proof (map_insert_old m leaf v) as Ho.
    pose proof (map_insert_get_same m leaf v) as Hs.
    destruct (map_insert m leaf v) as [m' o]; simpl in *; subst o.
    rewrite Hw; eexists; split; [reflexivity|exact Hs].
  - destruct (assoc_get k m) as [v0|] eqn:Hk.
    + rewrite (entry_or_insert_present _ _ _ _ Hk).
      destruct v0; try contradiction.
      destruct (IH _ Hw) as [inner' [Hi Hl']]; rewrite Hi.
      eexists; split; [reflexivity|]; simpl.
      rewrite map_insert_get_same; exact Hl'.
    + rewrite (entry_or_insert_absent _ _ _ Hk).
      destruct (IH [] (walkable_nil path' leaf)) as [inner' [Hi Hl']]; rewrite Hi.
      eexists; split; [reflexivity|]; simpl.
      rewrite map_insert_get_same; exact Hl'.
Qed.

Lemma unrelated_cons (k k2 : string) (a b : list string) :
  unrelated (k :: a) (k2 :: b) -> k2 <> k \/ (k2 = k /\ unrelated a b).
Proof.
  unfold unrelated; simpl; intros [H1 H2].
  destruct (String.eqb k2 k) eqn:E.
  - apply String.eqb_eq in E; subst; right; split; [reflexivity|].
    rewrite ?String.eqb_refl in *; simpl in *; split; assumption.
  - left; apply String.eqb_neq; exact E.
Qed.

Lemma insert_value_other (m : Map) (path : list string) (leaf : string) (v : Value)
    (path2 : list string) (leaf2 : string) :
  walkable m path leaf ->
  unrelated (path ++ [leaf]) (path2 ++ [leaf2]) ->
  lookup_path (fst (insert_value m path leaf v)) path2 leaf2 = lookup_path m path2 leaf2 /\
  (walkable m path2 leaf2 -> walkable (fst (insert_value m path leaf v)) path2 leaf2).
Proof.
  revert m path2; induction path as [|k p IH]; intros m path2 Hw Hu.
  - simpl insert_value.
    destruct (map_insert m leaf v) as [m' o] eqn:Ei.
    assert (Hm' : m' = fst (map_insert m leaf v)) by (rewrite Ei; reflexivity).
    assert (Hfst : fst (match o with Some old_value => (m', Err (ReplacedOld old_value))
                                   | None => (m', Ok) end) = m') by (destruct o; reflexivity).
    rewrite Hfst; clear Hfst.
    destruct path2 as [|k2 p2]; simpl in Hu |- *.
    + destruct (unrelated_cons _ _ _ _ Hu) as [Hne|[_ [Hx _]]]; [|simpl in Hx; discriminate Hx].
      rewrite Hm', (map_insert_get_other _ _ _ _ Hne); split; auto.
    + destruct (unrelated_cons _ _ _ _ Hu) as [Hne|[_ [Hx _]]]; [|simpl in Hx; discriminate Hx].
      rewrite Hm', (map_insert_get_other _ _ _ _ Hne); split; auto.
  - simpl in Hw; simpl insert_value.
    destruct (assoc_get k m) as [v0|] eqn:Hk.
    + rewrite (entry_or_insert_present _ _ _ _ Hk).
      destruct v0 as [| | | | |inner]; try contradiction.
      destruct (insert_value inner p leaf v) as [inner' r] eqn:Hi; simpl.
      destruct path2 as [|k2 p2]; simpl in Hu |- *.
      * destruct (unrelated_cons _ _ _ _ Hu) as [Hne|[Heq Hu']].
        -- rewrite (map_insert_get_other _ _ _ _ Hne); split; auto.
        -- destruct Hu' as [_ Hx]; discriminate Hx.
      * destruct (unrelated_cons _ _ _ _ Hu) as [Hne|[Heq Hu']].
        -- rewrite (map_insert_get_other _ _ _ _ Hne); split; auto.
        -- subst k2; rewrite map_insert_get_same, Hk.
           destruct (IH inner p2 Hw Hu') as [IH1 IH2]; rewrite Hi in IH1, IH2.
           split; assumption.
    + rewrite (entry_or_insert_absent _ _ _ Hk).
      destruct (insert_value [] p leaf v) as [inner' r] eqn:Hi; simpl.
      rewrite (map_insert_app_fresh _ _ _ _ Hk).
      destruct path2 as [|k2 p2]; simpl in Hu |- *.
      * destruct (unrelated_cons _ _ _ _ Hu) as [Hne|[Heq Hu']].
        -- rewrite (assoc_get_app_fresh _ _ _ _ Hk).
           apply String.eqb_neq in Hne; rewrite Hne; split; auto.
        -- destruct Hu' as [_ Hx]; discriminate Hx.
      * destruct (unrelated_cons _ _ _ _ Hu) as [Hne|[Heq Hu']].
        -- rewrite (assoc_get_app_fresh _ _ _ _ Hk).
           apply String.eqb_neq in Hne; rewrite Hne; split; auto.
        -- subst k2; rewrite (assoc_get_app_fresh _ _ _ _ Hk), String.eqb_refl, Hk.
           destruct (IH [] p2 (walkable_nil p leaf) Hu') as [IH1 IH2]; rewrite Hi in IH1, IH2.
           rewrite lookup_path_nil in IH1.
           split; [exact IH1|intros _; apply IH2, walkable_nil].
Qed.

Lemma unrelated_sym (a b : list string) : unrelated a b -> unrelated b a.
Proof. unfold unrelated; tauto. Qed.

(** ** Splitting *)

Lemma split_nonempty (c : ascii) (s : string) : split c s <> [].
Proof.
  induction s as [|a rest IH]; simpl; [discriminate|].
  destruct (Ascii.eqb a c); [discriminate|].
  destruct (split c rest); discriminate.
Qed.

Lemma next_back_app (r : list string) (x : string) : next_back (r ++ [x]) = Some (x, r).
Proof. unfold next_back; rewrite rev_app_distr; simpl; rewrite rev_involutive; reflexivity. Qed.

Lemma next_back_inv (l r : list string) (x : string) :
  next_back l = Some (x, r) -> l = r ++ [x].
Proof.
  unfold next_back; intros H.
  destruct (rev l) as [|y l'] eqn:E; [discriminate|].
  injection H as Hy Hr; subst.
  apply (f_equal (@rev string)) in E; rewrite rev_involutive in E.
  rewrite E; reflexivity.
Qed.

Lemma next_back_nonempty (l : list string) : l <> [] -> exists x r, next_back l = Some (x, r).
Proof.
  intros Hl; destruct (rev l) as [|y l'] eqn:E.
  - apply (f_equal (@rev string)) in E; rewrite rev_involutive in E; contradiction.
  - exists y, (rev l'); unfold next_back; rewrite E; reflexivity.
Qed.

(** ** The flattening engine *)

Section Flattening.

Variable TomlValue : Type.
Variable toml_from_str : string -> option TomlValue.
Variable toml_try_into : TomlValue -> option Value.

Let explode_loop' := explode_loop TomlValue toml_from_str toml_try_into.
Let parse_entry' := parse_entry TomlValue toml_from_str toml_try_into.

Lemma explode_loop_unique (l : list string) (ps : list (list string * Value)) :
  forall (m : Map) (log : list Warning) (done : list (list string * Value)),
  map parse_entry' l = map Some ps ->
  ForallOrdPairs (fun a b => unrelated (fst a) (fst b)) ps ->
  Forall (fun p => walkable_key m (fst p)) ps ->
  Forall (fun d => Forall (fun p => unrelated (fst d) (fst p)) ps) done ->
  Forall (fun d => lookup_key m (fst d) = Some (snd d)) done ->
  exists m', explode_loop' l m log = Exploded m' log /\
             Forall (fun d => lookup_key m' (fst d) = Some (snd d)) (done ++ ps).
Proof.
  revert ps; induction l as [|e l' IH]; intros ps m log done Hmap Hord Hwalk Hdone Hlook.
  - destruct ps; [|discriminate].
    exists m; rewrite app_nil_r; split; [reflexivity|exact Hlook].
  - destruct ps as [|[segs v] ps']; [discriminate|].
    simpl in Hmap; injection Hmap as He Hmap'.
    unfold parse_entry', parse_entry in He.
    destruct (split_once "=" e) as [[raw_key raw_value]|] eqn:Hs; [|discriminate].
    destruct (toml_from_str raw_value) as [t|] eqn:Ht; [|discriminate].
    destruct (toml_try_into t) as [v'|] eqn:Hc; [|discriminate].
    injection He as Hsegs Hv; subst segs v'.
    destruct (next_back_nonempty _ (split_nonempty "." raw_key)) as [leaf [path Hnb]].
    pose proof (next_back_inv _ _ _ Hnb) as Hsplit.
    inversion Hwalk as [|? ? Hw0 Hwalk']; subst.
    simpl in Hw0; unfold walkable_key in Hw0; rewrite Hnb in Hw0.
    destruct (insert_value_walkable_ok m path leaf v Hw0) as [m1 [Hi Hl1]].
    inversion Hord as [|? ? Hhead Hord']; subst.
    assert (Hsteps : explode_loop' (e :: l') m log = explode_loop' l' m1 log).
    { unfold explode_loop'; simpl; rewrite Hs, Hnb, Ht, Hc, Hi; reflexivity. }
    rewrite Hsteps.
    destruct (IH ps' m1 log (done ++ [(split "." raw_key, v)]) Hmap' Hord') as [m' [Hrun Hall]].
    + apply Forall_forall; intros q Hq.
      pose proof (proj1 (Forall_forall _ _) Hhead q Hq) as Hu; simpl in Hu.
      pose proof (proj1 (Forall_forall _ _) Hwalk' q Hq) as Hwq.
      unfold walkable_key in *.
      destruct (next_back (fst q)) as [[leaf2 path2]|] eqn:Hq2; [|contradiction].
      rewrite (next_back_inv _ _ _ Hq2), Hsplit in Hu.
      pose proof (insert_value_other m path leaf v path2 leaf2 Hw0 Hu) as [_ Hp].
      rewrite Hi in Hp; apply Hp, Hwq.
    + apply Forall_app; split.
      * apply Forall_forall; intros d Hd.
        pose proof (proj1 (Forall_forall _ _) Hdone d Hd) as Hd'.
        inversion Hd'; assumption.
      * constructor; [exact Hhead|constructor].
    + apply Forall_app; split.
      * apply Forall_forall; intros d Hd.
        pose proof (proj1 (Forall_forall _ _) Hdone d Hd) as Hd'.
        pose proof (proj1 (Forall_forall _ _) Hlook d Hd) as Hld.
        inversion Hd' as [|? ? Hu _]; subst; simpl in Hu.
        unfold lookup_key in *.
        destruct (next_back (fst d)) as [[leaf2 path2]|] eqn:Hd2; [|discriminate].
        rewrite (next_back_inv _ _ _ Hd2), Hsplit in Hu.
        pose proof (insert_value_other m path leaf v path2 leaf2 Hw0 (unrelated_sym _ _ Hu))
          as [Hp _].
        rewrite Hi in Hp; simpl in Hp; rewrite Hp; exact Hld.
      * constructor; [|constructor].
        unfold lookup_key; simpl; rewrite Hnb; exact Hl1.
    + exists m'; split; [exact Hrun|].
      rewrite <- app_assoc in Hall; exact Hall.
Qed.

Lemma explode_loop_panics (l : list string) (e : string) :
  In e l -> split_once "=" e = None ->
  forall m log, exists log', explode_loop' l m log = ExplodePanicked log'.
Proof.
  intros Hin He; induction l as [|e' l' IH]; [destruct Hin|].
  intros m log; unfold explode_loop'; simpl.
  destruct Hin as [<-|Hin]; [rewrite He; eexists; reflexivity|].
  destruct (split_once "=" e') as [[raw_key raw_value]|]; [|eexists; reflexivity].
  destruct (next_back (split "." raw_key)) as [[local_key key_parts]|]; [|apply IH; exact Hin].
  destruct (toml_from_str raw_value) as [t|]; [|apply IH; exact Hin].
  destruct (toml_try_into t) as [v|]; [|apply IH; exact Hin].
  destruct (insert_value m key_parts local_key v) as [m1 [|err]]; apply IH; exact Hin.
Qed.

Lemma explode_loop_log_bound (l : list string) :
  forall m log m' log', explode_loop' l m log = Exploded m' log' ->
  List.length log' <= List.length log + List.length l.
Proof.
  induction l as [|e l' IH]; intros m log m' log' H; unfold explode_loop' in *; simpl in H.
  - injection H as <- <-; simpl; lia.
  - destruct (split_once "=" e) as [[raw_key raw_value]|]; [|discriminate].
    simpl List.length.
    destruct (next_back (split "." raw_key)) as [[local_key key_parts]|];
      [|apply IH in H; rewrite length_app in H; simpl in H; lia].
    destruct (toml_from_str raw_value) as [t|];
      [|apply IH in H; rewrite length_app in H; simpl in H; lia].
    destruct (toml_try_into t) as [v|];
      [|apply IH in H; rewrite length_app in H; simpl in H; lia].
    destruct (insert_value m key_parts local_key v) as [m1 [|err]];
      apply IH in H; rewrite ?length_app in H; simpl in H; lia.
Qed.

Lemma explode_loop_all_warned (l : list string) :
  forall log m' log', explode_loop' l [] log = Exploded m' log' ->
  List.length log' = List.length log + List.length l -> m' = [].
Proof.
  induction l as [|e l' IH]; intros log m' log' H Hlen.
  - unfold explode_loop' in H; simpl in H; injection H as <- <-; reflexivity.
  - pose proof (explode_loop_log_bound _ _ _ _ _ H) as _.
    unfold explode_loop' in H; simpl in H, Hlen.
    destruct (split_once "=" e) as [[raw_key raw_value]|]; [|discriminate].
    destruct (next_back (split "." raw_key)) as [[local_key key_parts]|];
      [|apply (IH _ _ _ H); rewrite length_app; simpl; lia].
    destruct (toml_from_str raw_value) as [t|];
      [|apply (IH _ _ _ H); rewrite length_app; simpl; lia].
    destruct (toml_try_into t) as [v|];
      [|apply (IH _ _ _ H); rewrite length_app; simpl; lia].
    pose proof (insert_value_nil_ok key_parts local_key v) as Hok.
    destruct (insert_value [] key_parts local_key v) as [m1 r]; simpl in Hok; subst r.
    apply explode_loop_log_bound in H; lia.
Qed.

Lemma explode_loop_no_panic (l : list string) :
  Forall (fun e => split_once "=" e <> None) l ->
  forall m log, exists m' log', explode_loop' l m log = Exploded m' log'.
Proof.
  induction l as [|e l' IH]; intros Hall m log; [eexists _, _; reflexivity|].
  inversion Hall as [|? ? He Hall']; subst.
  unfold explode_loop'; simpl.
  destruct (split_once "=" e) as [[raw_key raw_value]|]; [|contradiction].
  destruct (next_back (split "." raw_key)) as [[local_key key_parts]|]; [|apply IH; exact Hall'].
  destruct (toml_from_str raw_value) as [t|]; [|apply IH; exact Hall'].
  destruct (toml_try_into t) as [v|]; [|apply IH; exact Hall'].
  destruct (insert_value m key_parts local_key v) as [m1 [|err]]; apply IH; exact Hall'.
Qed.

Lemma explode_map_some (l : list string) (m : Map) (log : list Warning) :
  explode_str_to_str_map TomlValue toml_from_str toml_try_into l = Some (m, log) ->
  explode_loop' l [] [] = Exploded m log.
Proof.
  unfold explode_str_to_str_map, explode_loop'.
  destruct (explode_loop TomlValue toml_from_str toml_try_into l [] []);
    [intros H; injection H as -> ->; reflexivity|discriminate].
Qed.

Let explode_str_to_str_map' := explode_str_to_str_map TomlValue toml_from_str toml_try_into.


(** C5: for well-formed entries whose dotted keys are pairwise
    non-conflicting (no key is a prefix of another, so in particular all
    keys differ), flattening emits no warning and looking up the key of any
    entry returns the value parsed from that entry. *)
Theorem C5_flatten_lookup (l : list string) (ps : list (list string * Value)) :
  map parse_entry' l = map Some ps ->
  ForallOrdPairs (fun a b => unrelated (fst a) (fst b)) ps ->
  exists m, explode_str_to_str_map' l = Some (m, []) /\
            Forall (fun p => lookup_key m (fst p) = Some (snd p)) ps.
Proof.
  intros Hmap Hord.
  assert (Hw : Forall (fun p => walkable_key [] (fst p)) ps).
  { apply Forall_forall; intros [segs v] Hin; simpl.
    assert (Hin2 : In (Some (segs, v)) (map parse_entry' l)).
    { rewrite Hmap; apply in_map; exact Hin. }
    apply in_map_iff in Hin2 as [e [He _]].
    unfold parse_entry', parse_entry in He.
    destruct (split_once "=" e) as [[raw_key raw_value]|]; [|discriminate].
    destruct (toml_from_str raw_value) as [t|]; [|discriminate].
    destruct (toml_try_into t) as [v'|]; [|discriminate].
    injection He as <- _.
    unfold walkable_key.
    destruct (next_back_nonempty _ (split_nonempty "." raw_key)) as [leaf [path Hnb]].
    rewrite Hnb; apply walkable_nil. }
  destruct (explode_loop_unique l ps [] [] [] Hmap Hord Hw (Forall_nil _) (Forall_nil _))
    as [m [Hrun Hall]].
  exists m; split; [|exact Hall].
  unfold explode_str_to_str_map', explode_str_to_str_map; unfold explode_loop' in Hrun.
  rewrite Hrun; reflexivity.
Qed.


(** C9: an entry without ['='] makes the whole flattening call panic
    ([split_once('=').unwrap()]), wherever it stands in the sequence. *)
Theorem C9_missing_equals_panics (l : list string) (e : string) :
  In e l -> split_once "=" e = None -> explode_str_to_str_map' l = None.
Proof.
  intros Hin He; unfold explode_str_to_str_map', explode_str_to_str_map.
  destruct (explode_loop_panics l e Hin He [] []) as [log' Hp].
  unfold explode_loop' in Hp; rewrite Hp; reflexivity.
Qed.

End Flattening.

(** ** The driver *)

Section Driver.

Variable TomlValue : Type.
Variable toml_from_str : string -> option TomlValue.
Variable toml_try_into : TomlValue -> option Value.
Variable parse_dynamic_config : string -> option DynamicConfig.
Variable host_lsp_config : string.
Variable host_initialization_options : list string.

Let legacy_tokens' := legacy_tokens host_initialization_options.
Let legacy_override' :=
  legacy_override TomlValue toml_from_str toml_try_into host_initialization_options.
Let after_legacy' :=
  after_legacy TomlValue toml_from_str toml_try_into host_initialization_options.
Let resolve_one' :=
  resolve_one TomlValue toml_from_str toml_try_into host_initialization_options.
Let request_legacy' :=
  request_legacy_initialization_options_from_kakoune TomlValue toml_from_str toml_try_into
    host_initialization_options.
Let resolve_server' :=
  resolve_server TomlValue toml_from_str toml_try_into host_initialization_options.
Let resolve_servers' :=
  resolve_servers TomlValue toml_from_str toml_try_into host_initialization_options.

Lemma configured_section_spec (meta : EditorMeta) (server_id : ServerId)
    (settings : option Value) (ctx : Context) (srv : ServerSettings) :
  id_get server_id (language_servers ctx) = Some srv ->
  configured_section meta server_id settings ctx =
    Done (project settings (section_name ctx (srv_name srv))) ctx.
Proof.
  intros Hs; unfold configured_section, server, bind, get, ret; simpl.
  rewrite Hs; simpl.
  unfold project, section_name.
  destruct settings as [t|]; [|reflexivity].
  destruct (assoc_get (srv_name srv) (server_configs ctx)) as [cfg|]; reflexivity.
Qed.

Lemma request_legacy_spec (meta : EditorMeta) (ctx : Context) :
  Forall (fun e => split_once "=" e <> None) legacy_tokens' ->
  request_legacy' meta ctx = Done legacy_override' (after_legacy' ctx).
Proof.
  intros Hall.
  unfold request_legacy', request_legacy_initialization_options_from_kakoune, legacy_override',
    legacy_override, after_legacy', after_legacy, legacy_warnings.
  fold (legacy_tokens host_initialization_options).
  fold legacy_tokens'.
  unfold bind, exec, modify, ret; simpl.
  destruct legacy_tokens' as [|e l] eqn:Ht.
  - unfold with_warn_log, with_exec_log; simpl; rewrite app_nil_r; destruct ctx; reflexivity.
  - destruct (explode_loop_no_panic TomlValue toml_from_str toml_try_into (e :: l) Hall [] [])
      as [m [log Hr]].
    unfold explode_str_to_str_map_call, explode_str_to_str_map; rewrite Hr; reflexivity.
Qed.

Lemma resolve_server_spec (meta : EditorMeta) (server_id : ServerId) (ctx : Context)
    (srv : ServerSettings) (cfg : LanguageServerConfig) :
  id_get server_id (language_servers ctx) = Some srv ->
  assoc_get (srv_name srv) (server_configs ctx) = Some cfg ->
  Forall (fun e => split_once "=" e <> None) legacy_tokens' ->
  resolve_server' meta server_id ctx =
    Done (resolve_one' ctx server_id)
         (match dynamic_projection ctx server_id with
          | Some _ => ctx
          | None => after_legacy' ctx
          end).
Proof.
  intros Hs Hc Hall.
  pose proof (request_legacy_spec meta ctx Hall) as HL; unfold request_legacy' in HL.
  unfold resolve_server', resolve_server.
  rewrite (bind_Done _ _ _ _ _ (server_spec _ _ _ Hs)).
  rewrite (bind_Done _ _ _ _ _ (get_spec ctx)).
  rewrite (bind_Done _ _ _ _ _ (configured_section_spec meta server_id _ ctx srv Hs)).
  unfold resolve_one', resolve_one, dynamic_projection, static_projection.
  rewrite Hs, Hc; unfold dynamic_settings.
  destruct (project _ (section_name ctx (srv_name srv))) as [d|] eqn:Hd;
    [reflexivity|].
  rewrite (bind_Done _ _ _ _ _ HL).
  unfold legacy_override'; destruct (legacy_override _ _ _ _) as [lv|] eqn:Hlv;
    [reflexivity|].
  assert (Hs' : id_get server_id (language_servers (after_legacy' ctx)) = Some srv) by exact Hs.
  rewrite (bind_Done _ _ _ _ _ (server_spec _ _ _ Hs')).
  rewrite (bind_Done _ _ _ _ _ (get_spec _)).
  assert (Hc' : assoc_get (srv_name srv) (server_configs (after_legacy' ctx)) = Some cfg)
    by exact Hc.
  unfold unwrap at 1; rewrite Hc'.
  rewrite (bind_Done _ _ _ _ _ (ret_spec _ _)).
  rewrite (configured_section_spec meta server_id _ _ srv Hs').
  simpl; destruct (project (cfg_settings cfg) _); reflexivity.
Qed.

Lemma resolve_servers_spec (meta : EditorMeta) (servers : list ServerId) :
  forall ctx : Context,
  Forall (fun server_id => exists srv cfg,
            id_get server_id (language_servers ctx) = Some srv /\
            assoc_get (srv_name srv) (server_configs ctx) = Some cfg) servers ->
  Forall (fun e => split_once "=" e <> None) legacy_tokens' ->
  exists ctx',
    resolve_servers' meta servers ctx = Done (map (resolve_one' ctx) servers) ctx' /\
    count_legacy_requests (exec_log ctx') =
      count_legacy_requests (exec_log ctx) +
      List.length (filter (fun server_id => match dynamic_projection ctx server_id with
                                            | Some _ => false
                                            | None => true
                                            end) servers).
Proof.
  induction servers as [|server_id rest IH]; intros ctx Hreg Hall.
  - exists ctx; split; [reflexivity|simpl; lia].
  - inversion Hreg as [|? ? [srv [cfg [Hs Hc]]] Hreg']; subst.
    unfold resolve_servers', resolve_servers; fold (resolve_servers TomlValue toml_from_str toml_try_into host_initialization_options).
    fold resolve_servers'.
    rewrite (bind_Done _ _ _ _ _ (resolve_server_spec meta server_id ctx srv cfg Hs Hc Hall)).
    destruct (dynamic_projection ctx server_id) as [d|] eqn:Hd.
    + destruct (IH ctx Hreg' Hall) as [ctx' [Hrun Hcount]].
      rewrite (bind_Done _ _ _ _ _ Hrun).
      exists ctx'; split; [reflexivity|].
      simpl; rewrite Hd; exact Hcount.
    + destruct (IH (after_legacy' ctx) Hreg' Hall) as [ctx' [Hrun Hcount]].
      rewrite (bind_Done _ _ _ _ _ Hrun).
      exists ctx'; split; [reflexivity|].
      simpl; rewrite Hd.
      rewrite Hcount.
      change (dynamic_projection (after_legacy' ctx)) with (dynamic_projection ctx).
      unfold after_legacy', after_legacy, count_legacy_requests; simpl.
      rewrite filter_app, length_app; simpl; lia.
Qed.

Lemma apply_meta_overrides_exec_log (l : list (string * MetaServer)) :
  forall ctx ctx', apply_meta_overrides l ctx = Done tt ctx' -> exec_log ctx' = exec_log ctx.
Proof.
  induction l as [|[server_name srv] rest IH]; intros ctx ctx' H.
  - injection H as <-; reflexivity.
  - unfold apply_meta_overrides in H; fold apply_meta_overrides in H.
    unfold bind, get, unwrap in H.
    destruct (route_get (server_name, meta_root srv) (route_cache ctx)) as [sid|];
      [|discriminate].
    unfold ret, set_server_settings, bind, get, unwrap, modify in H.
    destruct (id_get sid (language_servers ctx)); [|discriminate].
    apply IH in H; rewrite H; reflexivity.
Qed.

Lemma request_dynamic_exec_log (meta : EditorMeta) (ctx ctx1 : Context) :
  request_dynamic_configuration_from_kakoune parse_dynamic_config host_lsp_config meta ctx =
    Done tt ctx1 ->
  exec_log ctx1 = exec_log ctx ++ [LspGetConfig].
Proof.
  unfold request_dynamic_configuration_from_kakoune, record_dynamic_config, bind, exec, modify.
  destruct (parse_dynamic_config host_lsp_config) as [cfg|]; [|discriminate].
  unfold get; simpl.
  destruct (negb _); [|intros H; injection H as <-; reflexivity].
  intros H; apply apply_meta_overrides_exec_log in H; rewrite H; reflexivity.
Qed.

Lemma request_init_after_dynamic (servers : list ServerId) (meta : EditorMeta)
    (ctx ctx1 : Context) :
  request_dynamic_configuration_from_kakoune parse_dynamic_config host_lsp_config meta ctx =
    Done tt ctx1 ->
  request_initialization_options_from_kakoune TomlValue toml_from_str toml_try_into
    parse_dynamic_config host_lsp_config host_initialization_options servers meta ctx =
  resolve_servers' meta servers ctx1.
Proof.
  intros H; unfold request_initialization_options_from_kakoune.
  rewrite (bind_Done _ _ _ _ _ H); reflexivity.
Qed.

(** C2 (amended): the legacy override is requested inside the per-server
    loop, once for every server whose dynamic projection yields nothing:
    a pass adds exactly that many legacy requests to the host. *)
Theorem C2_legacy_requests_per_pass (servers : list ServerId) (meta : EditorMeta)
    (ctx ctx1 : Context) :
  request_dynamic_configuration_from_kakoune parse_dynamic_config host_lsp_config meta ctx =
    Done tt ctx1 ->
  Forall (fun server_id => exists srv cfg,
            id_get server_id (language_servers ctx1) = Some srv /\
            assoc_get (srv_name srv) (server_configs ctx1) = Some cfg) servers ->
  Forall (fun e => split_once "=" e <> None) legacy_tokens' ->
  exists res ctx2,
    request_initialization_options_from_kakoune TomlValue toml_from_str toml_try_into
      parse_dynamic_config host_lsp_config host_initialization_options servers meta ctx =
      Done res ctx2 /\
    count_legacy_requests (exec_log ctx2) =
      count_legacy_requests (exec_log ctx) +
      List.length (filter (fun server_id => match dynamic_projection ctx1 server_id with
                                            | Some _ => false
                                            | None => true
                                            end) servers).
Proof.
  intros Hdyn Hreg Hall.
  rewrite (request_init_after_dynamic servers meta ctx ctx1 Hdyn).
  destruct (resolve_servers_spec meta servers ctx1 Hreg Hall) as [ctx2 [Hrun Hcount]].
  exists (map (resolve_one' ctx1) servers), ctx2; split; [exact Hrun|].
  rewrite Hcount, (request_dynamic_exec_log meta ctx ctx1 Hdyn).
  unfold count_legacy_requests; rewrite filter_app, length_app; simpl; lia.
Qed.

(** C3: after the dynamic configuration is recorded, each server gets
    exactly one result, in order: the first of the dynamic projection, the
    legacy override and the static projection that yields a value. *)
Theorem C3_resolution_priority (servers : list ServerId) (meta : EditorMeta)
    (ctx ctx1 : Context) :
  request_dynamic_configuration_from_kakoune parse_dynamic_config host_lsp_config meta ctx =
    Done tt ctx1 ->
  Forall (fun server_id => exists srv cfg,
            id_get server_id (language_servers ctx1) = Some srv /\
            assoc_get (srv_name srv) (server_configs ctx1) = Some cfg) servers ->
  Forall (fun e => split_once "=" e <> None) legacy_tokens' ->
  exists ctx2,
    request_initialization_options_from_kakoune TomlValue toml_from_str toml_try_into
      parse_dynamic_config host_lsp_config host_initialization_options servers meta ctx =
      Done (map (fun server_id =>
                   first_some [dynamic_projection ctx1 server_id;
                               legacy_override';
                               static_projection ctx1 server_id]) servers) ctx2.
Proof.
  intros Hdyn Hreg Hall.
  rewrite (request_init_after_dynamic servers meta ctx ctx1 Hdyn).
  destruct (resolve_servers_spec meta servers ctx1 Hreg Hall) as [ctx2 [Hrun _]].
  exists ctx2; exact Hrun.
Qed.

(** C4: a configuration text that does not parse makes the recorder show an
    error and panic, with [dynamic_config] left as it was. *)
Theorem C4_record_invalid_config (meta : EditorMeta) (config : string) (ctx : Context) :
  parse_dynamic_config config = None ->
  exists ctx',
    record_dynamic_config parse_dynamic_config meta config ctx = Panicked ctx' /\
    dynamic_config ctx' = dynamic_config ctx /\
    exec_log ctx' = exec_log ctx ++ [LspShowError].
Proof.
  intros H; unfold record_dynamic_config; rewrite H.
  eexists; split; [reflexivity|split; reflexivity].
Qed.

(** C7: for a registered server, [configured_section] returns nothing when
    the settings tree is absent, when no section name is configured, or when
    the tree has no such top-level key; otherwise it returns the value at
    that single top-level key.  The context is left unchanged. *)
Theorem C7_configured_section (meta : EditorMeta) (server_id : ServerId)
    (settings : option Value) (ctx : Context) (srv : ServerSettings) :
  id_get server_id (language_servers ctx) = Some srv ->
  exists r,
    configured_section meta server_id settings ctx = Done r ctx /\
    (settings = None -> r = None) /\
    (section_name ctx (srv_name srv) = None -> r = None) /\
    (forall t s, settings = Some t -> section_name ctx (srv_name srv) = Some s ->
       value_get t s = None -> r = None) /\
    (forall t s, settings = Some t -> section_name ctx (srv_name srv) = Some s ->
       r = value_get t s).
Proof.
  intros Hs; rewrite (configured_section_spec meta server_id settings ctx srv Hs).
  eexists; split; [reflexivity|].
  unfold project.
  split; [intros ->; reflexivity|].
  split; [intros ->; destruct settings; reflexivity|].
  split; intros t s -> ->; [intros Hv; exact Hv|reflexivity].
Qed.

(** C8: an empty legacy token sequence makes the legacy request yield
    nothing, and a server without a dynamic value then falls through to its
    static projection. *)
Theorem C8_empty_legacy_absent (meta : EditorMeta) (ctx : Context) :
  legacy_tokens' = [] ->
  request_legacy' meta ctx = Done None (after_legacy' ctx) /\
  (forall server_id srv cfg,
     id_get server_id (language_servers ctx) = Some srv ->
     assoc_get (srv_name srv) (server_configs ctx) = Some cfg ->
     dynamic_projection ctx server_id = None ->
     resolve_server' meta server_id ctx =
       Done (static_projection ctx server_id) (after_legacy' ctx)).
Proof.
  intros Ht.
  assert (Hall : Forall (fun e => split_once "=" e <> None) legacy_tokens')
    by (rewrite Ht; constructor).
  assert (Hlo : legacy_override' = None).
  { unfold legacy_override', legacy_override.
    fold (legacy_tokens host_initialization_options); fold legacy_tokens'.
    rewrite Ht; reflexivity. }
  split.
  - rewrite <- Hlo; apply request_legacy_spec; exact Hall.
  - intros server_id srv cfg Hs Hc Hd.
    rewrite (resolve_server_spec meta server_id ctx srv cfg Hs Hc Hall), Hd.
    unfold resolve_one', resolve_one; fold legacy_override'; rewrite Hd, Hlo.
    simpl; destruct (static_projection ctx server_id); reflexivity.
Qed.

Lemma explode_some_has_equals (l : list string) (r : Map * list Warning) :
  explode_str_to_str_map TomlValue toml_from_str toml_try_into l = Some r ->
  Forall (fun e => split_once "=" e <> None) l.
Proof.
  intros H; apply Forall_forall; intros e Hin He.
  destruct (explode_loop_panics TomlValue toml_from_str toml_try_into l e Hin He [] [])
    as [log' Hp].
  unfold explode_str_to_str_map in H; rewrite Hp in H; discriminate.
Qed.

(** C10: when the legacy token sequence is non-empty and every entry is
    discarded (each entry emits one warning, so the warnings are as many as
    the entries), the legacy request yields an empty object, not nothing,
    and a server without a dynamic value stops there instead of reaching
    its static configuration. *)
Theorem C10_all_discarded_stops_chain (meta : EditorMeta) (ctx : Context)
    (m : Map) (log : list Warning) :
  legacy_tokens' <> [] ->
  explode_str_to_str_map TomlValue toml_from_str toml_try_into legacy_tokens' = Some (m, log) ->
  List.length log = List.length legacy_tokens' ->
  request_legacy' meta ctx = Done (Some (Object [])) (after_legacy' ctx) /\
  (forall server_id srv cfg,
     id_get server_id (language_servers ctx) = Some srv ->
     assoc_get (srv_name srv) (server_configs ctx) = Some cfg ->
     dynamic_projection ctx server_id = None ->
     resolve_server' meta server_id ctx = Done (Some (Object [])) (after_legacy' ctx)).
Proof.
  intros Hne Hr Hlen.
  pose proof (explode_some_has_equals _ _ Hr) as Hall.
  assert (Hm : m = []).
  { apply (explode_loop_all_warned TomlValue toml_from_str toml_try_into legacy_tokens' [] m log);
      [apply explode_map_some; exact Hr|simpl; exact Hlen]. }
  subst m.
  assert (Hlo : legacy_override' = Some (Object [])).
  { unfold legacy_override', legacy_override.
    fold (legacy_tokens host_initialization_options); fold legacy_tokens'.
    destruct legacy_tokens' as [|e l]; [contradiction|].
    rewrite Hr; reflexivity. }
  split.
  - rewrite <- Hlo; apply request_legacy_spec; exact Hall.
  - intros server_id srv cfg Hs Hc Hd.
    rewrite (resolve_server_spec meta server_id ctx srv cfg Hs Hc Hall), Hd.
    unfold resolve_one', resolve_one; fold legacy_override'; rewrite Hd, Hlo.
    reflexivity.
Qed.

End Driver.

(** * Concrete instances of the properties *)



(** C2 as stated fails: with no dynamic settings and two servers, one pass
    asks the editor for the legacy override twice. *)
Lemma C2_counterexample :
  exists res ctx2,
    request_initialization_options_from_kakoune Value toml_doc_from_str toml_doc_try_into
      toy_parse_config "" [] [0; 1] meta0 ctx_two = Done res ctx2 /\
    count_legacy_requests (exec_log ctx2) = 2.
Proof. eexists _, _; split; reflexivity. Qed.

Lemma C2_witness :
  exists res ctx2,
    request_initialization_options_from_kakoune Value toml_doc_from_str toml_doc_try_into
      toy_parse_config "" [] [0; 1] meta0 ctx_two = Done res ctx2 /\
    count_legacy_requests (exec_log ctx2) =
      count_legacy_requests (exec_log ctx_two) +
      List.length (filter (fun server_id =>
                             match dynamic_projection
                                     (with_exec_log (with_dynamic_config ctx_two empty_dynamic_config)
                                        [LspGetConfig]) server_id with
                             | Some _ => false
                             | None => true
                             end) [0; 1]).
Proof.
  apply (C2_legacy_requests_per_pass Value toml_doc_from_str toml_doc_try_into toy_parse_config
           "" [] [0; 1] meta0 ctx_two
           (with_exec_log (with_dynamic_config ctx_two empty_dynamic_config) [LspGetConfig])).
  - reflexivity.
  - repeat constructor.
    + exists {| srv_name := "rls"; srv_settings := None |}, rls_config; split; reflexivity.
    + exists {| srv_name := "pyls"; srv_settings := None |}, pyls_config; split; reflexivity.
  - constructor.
Defined.

Lemma C3_witness :
  exists ctx2,
    request_initialization_options_from_kakoune Value toml_doc_from_str toml_doc_try_into
      toy_parse_config rls_config_text ["x=1"; "map-end"] [0; 1] meta0 ctx_two =
    Done (map (fun server_id =>
                 first_some
                   [dynamic_projection
                      (with_exec_log (with_dynamic_config ctx_two rls_dynamic_config)
                         [LspGetConfig]) server_id;
                    legacy_override Value toml_doc_from_str toml_doc_try_into ["x=1"; "map-end"];
                    static_projection
                      (with_exec_log (with_dynamic_config ctx_two rls_dynamic_config)
                         [LspGetConfig]) server_id]) [0; 1]) ctx2.
Proof.
  apply (C3_resolution_priority Value toml_doc_from_str toml_doc_try_into toy_parse_config
           rls_config_text ["x=1"; "map-end"] [0; 1] meta0 ctx_two
           (with_exec_log (with_dynamic_config ctx_two rls_dynamic_config) [LspGetConfig])).
  - reflexivity.
  - repeat constructor.
    + exists {| srv_name := "rls"; srv_settings := None |}, rls_config; split; reflexivity.
    + exists {| srv_name := "pyls"; srv_settings := None |}, pyls_config; split; reflexivity.
  - constructor; [discriminate|constructor].
Defined.

Lemma C4_witness :
  exists ctx',
    record_dynamic_config toy_parse_config meta0 "not toml" ctx_two = Panicked ctx' /\
    dynamic_config ctx' = dynamic_config ctx_two /\
    exec_log ctx' = exec_log ctx_two ++ [LspShowError].
Proof.
  apply (C4_record_invalid_config toy_parse_config meta0 "not toml" ctx_two).
  reflexivity.
Defined.

Lemma C5_witness :
  exists m,
    explode_str_to_str_map Value toml_doc_from_str toml_doc_try_into
      ["a.b=x=1"; "a.c=y = true"; "d= z=2 "] = Some (m, []) /\
    Forall (fun p => lookup_key m (fst p) = Some (snd p))
      [(["a"; "b"], Object [("x", Number 1)]); (["a"; "c"], Object [("y", Bool true)]);
       (["d"], Object [("z", Number 2)])].
Proof.
  apply (C5_flatten_lookup Value toml_doc_from_str toml_doc_try_into
           ["a.b=x=1"; "a.c=y = true"; "d= z=2 "]
           [(["a"; "b"], Object [("x", Number 1)]); (["a"; "c"], Object [("y", Bool true)]);
            (["d"], Object [("z", Number 2)])]).
  - reflexivity.
  - repeat constructor.
Defined.



Lemma C7_witness :
  exists r,
    configured_section meta0 0 (Some (Object [("rust", Number 5)])) ctx_two = Done r ctx_two /\
    (Some (Object [("rust", Number 5)]) = None -> r = None) /\
    (section_name ctx_two "rls" = None -> r = None) /\
    (forall t s, Some (Object [("rust", Number 5)]) = Some t ->
       section_name ctx_two "rls" = Some s -> value_get t s = None -> r = None) /\
    (forall t s, Some (Object [("rust", Number 5)]) = Some t ->
       section_name ctx_two "rls" = Some s -> r = value_get t s).
Proof.
  apply (C7_configured_section meta0 0 (Some (Object [("rust", Number 5)])) ctx_two
           {| srv_name := "rls"; srv_settings := None |}).
  reflexivity.
Defined.

Lemma C8_witness :
  request_legacy_initialization_options_from_kakoune Value toml_doc_from_str toml_doc_try_into
    ["map-end"; "a=1"] meta0 ctx_two =
    Done None (after_legacy Value toml_doc_from_str toml_doc_try_into ["map-end"; "a=1"] ctx_two) /\
  (forall server_id srv cfg,
     id_get server_id (language_servers ctx_two) = Some srv ->
     assoc_get (srv_name srv) (server_configs ctx_two) = Some cfg ->
     dynamic_projection ctx_two server_id = None ->
     resolve_server Value toml_doc_from_str toml_doc_try_into ["map-end"; "a=1"] meta0 server_id
       ctx_two =
     Done (static_projection ctx_two server_id)
       (after_legacy Value toml_doc_from_str toml_doc_try_into ["map-end"; "a=1"] ctx_two)).
Proof.
  apply (C8_empty_legacy_absent Value toml_doc_from_str toml_doc_try_into ["map-end"; "a=1"]
           meta0 ctx_two).
  reflexivity.
Defined.

Lemma C9_witness :
  explode_str_to_str_map Value toml_doc_from_str toml_doc_try_into ["a.b=1"; "oops"; "c=2"] = None.
Proof.
  apply (C9_missing_equals_panics Value toml_doc_from_str toml_doc_try_into
           ["a.b=1"; "oops"; "c=2"] "oops").
  - right; left; reflexivity.
  - reflexivity.
Defined.

Lemma C10_witness :
  request_legacy_initialization_options_from_kakoune Value toml_doc_from_str toml_doc_try_into
    ["a=zzz"; "b.c=?"; "map-end"; "d=1"] meta0 ctx_two =
    Done (Some (Object []))
      (after_legacy Value toml_doc_from_str toml_doc_try_into ["a=zzz"; "b.c=?"; "map-end"; "d=1"]
         ctx_two) /\
  (forall server_id srv cfg,
     id_get server_id (language_servers ctx_two) = Some srv ->
     assoc_get (srv_name srv) (server_configs ctx_two) = Some cfg ->
     dynamic_projection ctx_two server_id = None ->
     resolve_server Value toml_doc_from_str toml_doc_try_into ["a=zzz"; "b.c=?"; "map-end"; "d=1"]
       meta0 server_id ctx_two =
     Done (Some (Object []))
       (after_legacy Value toml_doc_from_str toml_doc_try_into ["a=zzz"; "b.c=?"; "map-end"; "d=1"]
          ctx_two)).
Proof.
  apply (C10_all_discarded_stops_chain Value toml_doc_from_str toml_doc_try_into
           ["a=zzz"; "b.c=?"; "map-end"; "d=1"] meta0 ctx_two []
           [WarnParse "zzz"; WarnParse "?"]).
  - discriminate.
  - reflexivity.
  - reflexivity.
Defined.

(** * Further properties of the tree inserter and the flattening engine *)

Lemma insert_value_unblocked_lookup (m : Map) (path : list string) (leaf : string) (v : Value) :
  blocking_segment m path = None ->
  lookup_path (fst (insert_value m path leaf v)) path leaf = Some v.
Proof.
  revert m; induction path as [|k path' IH]; intros m Hb; simpl in *.
  - destruct (map_insert m leaf v) as [m' [old|]] eqn:Ei; simpl;
      pose proof (map_insert_get_same m leaf v) as Hs; rewrite Ei in Hs; exact Hs.
  - destruct (assoc_get k m) as [v0|] eqn:Hk.
    + rewrite (entry_or_insert_present _ _ _ _ Hk).
      destruct v0 as [| | | | |inner]; try discriminate.
      pose proof (IH inner Hb) as Hl.
      destruct (insert_value inner path' leaf v) as [inner' r]; simpl in *.
      rewrite map_insert_get_same; exact Hl.
    + rewrite (entry_or_insert_absent _ _ _ Hk).
      assert (Hb0 : blocking_segment [] path' = None) by (destruct path'; reflexivity).
      pose proof (IH [] Hb0) as Hl.
      destruct (insert_value [] path' leaf v) as [inner' r]; simpl in *.
      rewrite map_insert_get_same; exact Hl.
Qed.

(** X1: [insert_value] either meets a non-object on its path, fails with
    [NotAnObject] and returns the tree unchanged, or leaves the new value
    at the path (whether the leaf was new or replaced). *)
Theorem X1_insert_value_outcome (m : Map) (path : list string) (leaf : string) (v : Value) :
  (exists k, blocking_segment m path = Some k /\
             insert_value m path leaf v = (m, Err (NotAnObject k))) \/
  (blocking_segment m path = None /\
   lookup_path (fst (insert_value m path leaf v)) path leaf = Some v).
Proof.
  destruct (blocking_segment m path) as [k|] eqn:Hb.
  - left; exists k; split; [reflexivity|apply insert_value_blocked; exact Hb].
  - right; split; [reflexivity|apply insert_value_unblocked_lookup; exact Hb].
Qed.

Lemma insert_value_ok_walkable (m : Map) (path : list string) (leaf : string) (v : Value) :
  snd (insert_value m path leaf v) = Ok -> walkable m path leaf.
Proof.
  revert m; induction path as [|k path' IH]; intros m Hok; simpl in *.
  - pose proof (map_insert_old m leaf v) as Ho.
    destruct (map_insert m leaf v) as [m' [old|]]; simpl in *; [discriminate|].
    symmetry; exact Ho.
  - destruct (assoc_get k m) as [v0|] eqn:Hk; [|exact I].
    rewrite (entry_or_insert_present _ _ _ _ Hk) in Hok.
    destruct v0 as [| | | | |inner]; try discriminate.
    apply IH; destruct (insert_value inner path' leaf v); exact Hok.
Qed.

(** X2: a successful insert changes no lookup of a key that does not
    conflict with the inserted one (neither is a prefix of the other). *)
Theorem X2_insert_value_ok_other (m : Map) (path : list string) (leaf : string) (v : Value)
    (path2 : list string) (leaf2 : string) :
  snd (insert_value m path leaf v) = Ok ->
  unrelated (path ++ [leaf]) (path2 ++ [leaf2]) ->
  lookup_path (fst (insert_value m path leaf v)) path2 leaf2 = lookup_path m path2 leaf2.
Proof.
  intros Hok Hu.
  exact (proj1 (insert_value_other m path leaf v path2 leaf2
                  (insert_value_ok_walkable m path leaf v Hok) Hu)).
Qed.

(** X3: [split_once] cuts at the first occurrence of the character: the
    part before it does not contain it and the two parts around it give the
    input back; without an occurrence it yields nothing. *)
Theorem X3_split_once_first (c : ascii) (s : string) :
  match split_once c s with
  | Some (l, r) => s = (l ++ String c r)%string /\ ~ In c (list_ascii_of_string l)
  | None => ~ In c (list_ascii_of_string s)
  end.
Proof.
  induction s as [|a rest IH]; simpl; [tauto|].
  destruct (Ascii.eqb a c) eqn:E.
  - apply Ascii.eqb_eq in E; subst; simpl; split; [reflexivity|tauto].
  - apply Ascii.eqb_neq in E.
    destruct (split_once c rest) as [[l r]|]; simpl.
    + destruct IH as [-> Hn]; split; [reflexivity|].
      intros [H|H]; [apply E; exact H|apply Hn; exact H].
    + intros [H|H]; [apply E; exact H|apply IH; exact H].
Qed.

(** X4: [split] cuts at every occurrence of the separator: no segment
    contains it and joining the segments with it gives the input back
    (empty segments included). *)
Theorem X4_split_join (c : ascii) (s : string) :
  String.concat (String c EmptyString) (split c s) = s /\
  Forall (fun seg => ~ In c (list_ascii_of_string seg)) (split c s).
Proof.
  induction s as [|a rest [IHj IHf]]; simpl.
  - split; [reflexivity|constructor; [tauto|constructor]].
  - destruct (Ascii.eqb a c) eqn:E.
    + apply Ascii.eqb_eq in E; subst a.
      split; [|constructor; [simpl; tauto|exact IHf]].
      pose proof (split_nonempty c rest) as Hne.
      destruct (split c rest) as [|x xs]; [contradiction|].
      simpl; rewrite <- IHj; reflexivity.
    + apply Ascii.eqb_neq in E.
      pose proof (split_nonempty c rest) as Hne.
      destruct (split c rest) as [|x xs]; [contradiction|].
      apply Forall_cons_iff in IHf as [Hx Hxs].
      split.
      * rewrite <- IHj; destruct xs; reflexivity.
      * constructor; [|exact Hxs].
        simpl; intros [H|H]; [apply E; exact H|apply Hx; exact H].
Qed.

Section FlatteningLaws.

Variable TomlValue : Type.
Variable toml_from_str : string -> option TomlValue.
Variable toml_try_into : TomlValue -> option Value.

Lemma explode_loop_app (l1 l2 : list string) :
  forall (m : Map) (log : list Warning),
  explode_loop TomlValue toml_from_str toml_try_into (l1 ++ l2) m log =
  match explode_loop TomlValue toml_from_str toml_try_into l1 m log with
  | Exploded m1 log1 => explode_loop TomlValue toml_from_str toml_try_into l2 m1 log1
  | ExplodePanicked log1 => ExplodePanicked log1
  end.
Proof.
  induction l1 as [|e l1' IH]; intros m log; [reflexivity|].
  simpl.
  destruct (split_once "=" e) as [[raw_key raw_value]|]; [|reflexivity].
  destruct (next_back (split "." raw_key)) as [[local_key key_parts]|]; [|apply IH].
  destruct (toml_from_str raw_value) as [t|]; [|apply IH].
  destruct (toml_try_into t) as [v|]; [|apply IH].
  destruct (insert_value m key_parts local_key v) as [m1 [|err]]; apply IH.
Qed.

(** X6: each entry emits at most one warning. *)
Theorem X6_explode_warning_bound (l : list string) (m : Map) (log : list Warning) :
  explode_str_to_str_map TomlValue toml_from_str toml_try_into l = Some (m, log) ->
  List.length log <= List.length l.
Proof.
  intros H; apply explode_map_some in H.
  apply explode_loop_log_bound in H; simpl in H; exact H.
Qed.

(** X7: an entry whose value text does not parse as TOML, or does not
    convert to JSON, is skipped with one warning and leaves the tree as it
    was; the loop goes on with the next entry. *)
Theorem X7_explode_skips_bad_value (e : string) (l : list string) (m : Map)
    (log : list Warning) (raw_key raw_value : string) :
  split_once "=" e = Some (raw_key, raw_value) ->
  (toml_from_str raw_value = None ->
   explode_loop TomlValue toml_from_str toml_try_into (e :: l) m log =
   explode_loop TomlValue toml_from_str toml_try_into l m (log ++ [WarnParse raw_value])) /\
  (forall t, toml_from_str raw_value = Some t -> toml_try_into t = None ->
   explode_loop TomlValue toml_from_str toml_try_into (e :: l) m log =
   explode_loop TomlValue toml_from_str toml_try_into l m (log ++ [WarnConvert raw_value])).
Proof.
  intros Hs.
  destruct (next_back_nonempty _ (split_nonempty "." raw_key)) as [leaf [path Hnb]].
  split.
  - intros Ht; simpl; rewrite Hs, Hnb, Ht; reflexivity.
  - intros t Ht Hc; simpl; rewrite Hs, Hnb, Ht, Hc; reflexivity.
Qed.

(** X8: a later well-formed entry whose path meets no non-object in the
    tree built so far leaves its value at its key, whatever earlier entries
    put there (last write wins). *)
Theorem X8_explode_last_write_wins (l : list string) (e : string) (m : Map)
    (log : list Warning) (segs : list string) (v : Value) :
  explode_str_to_str_map TomlValue toml_from_str toml_try_into l = Some (m, log) ->
  parse_entry TomlValue toml_from_str toml_try_into e = Some (segs, v) ->
  blocking_segment m (removelast segs) = None ->
  exists m' log',
    explode_str_to_str_map TomlValue toml_from_str toml_try_into (l ++ [e]) = Some (m', log') /\
    lookup_key m' segs = Some v.
Proof.
  intros Hl He Hb.
  apply explode_map_some in Hl.
  unfold explode_str_to_str_map; rewrite explode_loop_app, Hl.
  unfold parse_entry in He.
  destruct (split_once "=" e) as [[raw_key raw_value]|] eqn:Hs; [|discriminate].
  destruct (toml_from_str raw_value) as [t|] eqn:Ht; [|discriminate].
  destruct (toml_try_into t) as [v'|] eqn:Hc; [|discriminate].
  injection He as <- <-.
  destruct (next_back_nonempty _ (split_nonempty "." raw_key)) as [leaf [path Hnb]].
  pose proof (next_back_inv _ _ _ Hnb) as Hsplit.
  rewrite Hsplit, removelast_last in Hb.
  pose proof (insert_value_unblocked_lookup m path leaf v' Hb) as Hlk.
  simpl; rewrite Hs, Hnb, Ht, Hc.
  destruct (insert_value m path leaf v') as [m1 [|err]]; simpl in Hlk;
    (eexists _, _; split; [reflexivity|]);
    unfold lookup_key; rewrite Hnb; exact Hlk.
Qed.

End FlatteningLaws.

(** * Further properties of the recorder and the driver *)

Lemma id_get_update_same {A : Type} (k : ServerId) (f : A -> A) (m : list (ServerId * A)) :
  id_get k (id_update k f m) = option_map f (id_get k m).
Proof.
  induction m as [|[k' v] rest IH]; simpl; [reflexivity|].
  destruct (Nat.eqb k k') eqn:E; simpl; rewrite ?E; [reflexivity|exact IH].
Qed.

Lemma id_get_update_other {A : Type} (k k2 : ServerId) (f : A -> A) (m : list (ServerId * A)) :
  k2 <> k -> id_get k2 (id_update k f m) = id_get k2 m.
Proof.
  intros Hne; induction m as [|[k' v] rest IH]; simpl; [reflexivity|].
  destruct (Nat.eqb k k') eqn:E; simpl.
  - apply Nat.eqb_eq in E; subst k'.
    apply Nat.eqb_neq in Hne; rewrite Hne; reflexivity.
  - destruct (Nat.eqb k2 k'); [reflexivity|exact IH].
Qed.

Lemma take_while_upto {A : Type} (p : A -> bool) (t rest : list A) (x : A) :
  Forall (fun y => p y = true) t -> p x = false -> take_while p (t ++ x :: rest) = t.
Proof.
  intros Ht Hx; induction Ht as [|y t' Hy Ht' IH]; simpl; [rewrite Hx; reflexivity|].
  rewrite Hy, IH; reflexivity.
Qed.

Lemma take_while_all {A : Type} (p : A -> bool) (t : list A) :
  Forall (fun y => p y = true) t -> take_while p t = t.
Proof.
  intros Ht; induction Ht as [|y t' Hy Ht' IH]; simpl; [reflexivity|].
  rewrite Hy, IH; reflexivity.
Qed.

Lemma apply_meta_overrides_missing_route (l : list (string * MetaServer)) :
  forall ctx,
  (exists p, In p l /\ route_get (fst p, meta_root (snd p)) (route_cache ctx) = None) ->
  exists ctx', apply_meta_overrides l ctx = Panicked ctx' /\
               dynamic_config ctx' = dynamic_config ctx.
Proof.
  induction l as [|[server_name srv] rest IH]; intros ctx [p [Hin Hr]]; [destruct Hin|].
  unfold apply_meta_overrides; fold apply_meta_overrides.
  unfold bind at 1, get at 1; simpl.
  destruct (route_get (server_name, meta_root srv) (route_cache ctx)) as [sid|] eqn:Hsid.
  - unfold bind at 1, unwrap, ret; simpl.
    unfold bind at 1, set_server_settings, bind at 1, get at 1, unwrap; simpl.
    destruct (id_get sid (language_servers ctx)) as [s0|].
    + unfold bind, ret, modify; simpl.
      destruct Hin as [<-|Hin]; [simpl in Hr; rewrite Hsid in Hr; discriminate|].
      apply (IH (with_language_servers ctx _)); exists p; split; [exact Hin|exact Hr].
    + exists ctx; split; reflexivity.
  - exists ctx; split; reflexivity.
Qed.

Lemma apply_meta_overrides_spec (l : list (string * MetaServer)) :
  forall ctx,
  Forall (fun p => exists sid srv,
            route_get (fst p, meta_root (snd p)) (route_cache ctx) = Some sid /\
            id_get sid (language_servers ctx) = Some srv) l ->
  NoDup (map (fun p => route_get (fst p, meta_root (snd p)) (route_cache ctx)) l) ->
  exists ctx',
    apply_meta_overrides l ctx = Done tt ctx' /\
    dynamic_config ctx' = dynamic_config ctx /\
    route_cache ctx' = route_cache ctx /\
    (forall sid, ~ In (Some sid) (map (fun p => route_get (fst p, meta_root (snd p))
                                                   (route_cache ctx)) l) ->
       id_get sid (language_servers ctx') = id_get sid (language_servers ctx)) /\
    (forall p sid srv, In p l ->
       route_get (fst p, meta_root (snd p)) (route_cache ctx) = Some sid ->
       id_get sid (language_servers ctx) = Some srv ->
       id_get sid (language_servers ctx') =
         Some {| srv_name := srv_name srv; srv_settings := meta_settings (snd p) |}).
Proof.
  induction l as [|[server_name ms] rest IH]; intros ctx Hall Hnd.
  - exists ctx; split; [reflexivity|split; [reflexivity|split; [reflexivity|]]].
    split; [reflexivity|intros p sid srv []].
  - inversion Hall as [|? ? [sid0 [srv0 [Hr0 Hs0]]] Hall']; subst.
    inversion Hnd as [|? ? Hnotin Hnd']; subst.
    simpl in Hr0, Hnotin.
    set (f := fun srv : ServerSettings =>
                {| srv_name := srv_name srv; srv_settings := meta_settings ms |}).
    set (ctx1 := with_language_servers ctx (id_update sid0 f (language_servers ctx))).
    assert (Hstep : apply_meta_overrides ((server_name, ms) :: rest) ctx =
                    apply_meta_overrides rest ctx1).
    { unfold apply_meta_overrides at 1; fold apply_meta_overrides.
      unfold bind, get, unwrap, set_server_settings, modify, ret; simpl.
      rewrite Hr0; simpl; unfold bind, get, unwrap, ret; simpl; rewrite Hs0; reflexivity. }
    rewrite Hstep.
    rewrite Hr0 in Hnotin.
    assert (Hother : forall sid, sid <> sid0 ->
              id_get sid (language_servers ctx1) = id_get sid (language_servers ctx))
      by (intros sid Hne; apply id_get_update_other; exact Hne).
    assert (Hne_rest : forall p sid, In p rest ->
              route_get (fst p, meta_root (snd p)) (route_cache ctx) = Some sid -> sid <> sid0).
    { intros p sid Hin Hr ->; apply Hnotin.
      rewrite <- Hr.
      apply (in_map (fun p => route_get (fst p, meta_root (snd p)) (route_cache ctx)));
      exact Hin. }
    assert (Hall1 : Forall (fun p => exists sid srv,
              route_get (fst p, meta_root (snd p)) (route_cache ctx1) = Some sid /\
              id_get sid (language_servers ctx1) = Some srv) rest).
    { apply Forall_forall; intros p Hin.
      destruct (proj1 (Forall_forall _ _) Hall' p Hin) as [sid [srv [Hr Hs]]].
      exists sid, srv; split; [exact Hr|].
      rewrite Hother by (apply (Hne_rest p); assumption); exact Hs. }
    destruct (IH ctx1 Hall1 Hnd') as [ctx' [Hrun [Hdyn [Hroute [Hkeep Hset]]]]].
    exists ctx'; split; [exact Hrun|split; [exact Hdyn|split; [exact Hroute|split]]].
    + intros sid Hsid; simpl in Hsid.
      rewrite Hkeep by (intros H; apply Hsid; right; exact H).
      apply Hother; intros ->; apply Hsid; left; exact Hr0.
    + intros p sid srv [<-|Hin] Hr Hs.
      * simpl in Hr; rewrite Hr0 in Hr; injection Hr as <-.
        rewrite Hs0 in Hs; injection Hs as <-.
        rewrite Hkeep by exact Hnotin.
        unfold ctx1; simpl; rewrite id_get_update_same, Hs0; reflexivity.
      * apply (Hset p sid srv Hin Hr).
        rewrite Hother by (apply (Hne_rest p); assumption); exact Hs.
Qed.

Lemma map_insert_keys (m : Map) (k k2 : string) (v : Value) :
  In k2 (map fst (fst (map_insert m k v))) -> In k2 (map fst m) \/ k2 = k.
Proof.
  induction m as [|[k' v'] rest IH]; simpl.
  - intros [H|[]]; right; symmetry; exact H.
  - destruct (String.eqb k k'); simpl; [tauto|].
    destruct (map_insert rest k v) as [rest' old]; simpl in *.
    intros [H|H]; [left; left; exact H|].
    destruct (IH H) as [H'|H']; [left; right; exact H'|right; exact H'].
Qed.

Lemma entry_or_insert_keys (m : Map) (k k2 : string) (d : Value) :
  In k2 (map fst (fst (entry_or_insert m k d))) -> In k2 (map fst m) \/ k2 = k.
Proof.
  unfold entry_or_insert; destruct (assoc_get k m); simpl; [tauto|].
  rewrite map_app, in_app_iff; simpl; intros [H|[H|[]]]; [left; exact H|right; symmetry; exact H].
Qed.

Lemma insert_value_keys (m : Map) (path : list string) (leaf k2 : string) (v : Value) :
  In k2 (map fst (fst (insert_value m path leaf v))) ->
  In k2 (map fst m) \/ hd_error (path ++ [leaf]) = Some k2.
Proof.
  destruct path as [|k path']; simpl.
  - pose proof (map_insert_keys m leaf k2 v) as Hk.
    destruct (map_insert m leaf v) as [m' [old|]]; simpl in *;
      intros H; destruct (Hk H) as [H'|H']; [left; exact H'|right; subst; reflexivity
                                            |left; exact H'|right; subst; reflexivity].
  - pose proof (entry_or_insert_keys m k k2 (Object [])) as He.
    destruct (entry_or_insert m k (Object [])) as [target1 cur]; simpl in He.
    destruct cur as [| | | | |inner];
      try (intros H; destruct (He H) as [H'|H']; [left; exact H'|right; subst; reflexivity]).
    destruct (insert_value inner path' leaf v) as [inner' r]; simpl.
    intros H; destruct (map_insert_keys target1 k k2 (Object inner') H) as [H'|H'];
      [destruct (He H') as [H''|H'']; [left; exact H''|right; subst; reflexivity]
      |right; subst; reflexivity].
Qed.

Lemma with_logs_twice (c : Context) (e1 e2 : list Command) (w1 w2 : list Warning) :
  with_warn_log (with_exec_log (with_warn_log (with_exec_log c e1) w1) e2) w2 =
  with_warn_log (with_exec_log c e2) w2.
Proof. destruct c; reflexivity. Qed.

Lemma with_logs_same (c : Context) :
  with_warn_log (with_exec_log c (exec_log c)) (warn_log c) = c.
Proof. destruct c; reflexivity. Qed.

Section FlatteningKeys.

Variable TomlValue : Type.
Variable toml_from_str : string -> option TomlValue.
Variable toml_try_into : TomlValue -> option Value.

Lemma explode_loop_keys (l : list string) :
  forall m log m' log' k,
  explode_loop TomlValue toml_from_str toml_try_into l m log = Exploded m' log' ->
  In k (map fst m') ->
  In k (map fst m) \/
  exists e segs v, In e l /\ parse_entry TomlValue toml_from_str toml_try_into e = Some (segs, v) /\
                   hd_error segs = Some k.
Proof.
  induction l as [|e l' IH]; intros m log m' log' k Hrun Hin.
  - injection Hrun as <- <-; left; exact Hin.
  - simpl in Hrun.
    destruct (split_once "=" e) as [[raw_key raw_value]|] eqn:Hs; [|discriminate].
    assert (Hlift : forall m1 log1,
              explode_loop TomlValue toml_from_str toml_try_into l' m1 log1 = Exploded m' log' ->
              (In k (map fst m1) -> In k (map fst m) \/
                 exists e0 segs v, In e0 (e :: l') /\
                   parse_entry TomlValue toml_from_str toml_try_into e0 = Some (segs, v) /\
                   hd_error segs = Some k) ->
              In k (map fst m) \/
              exists e0 segs v, In e0 (e :: l') /\
                parse_entry TomlValue toml_from_str toml_try_into e0 = Some (segs, v) /\
                hd_error segs = Some k).
    { intros m1 log1 Hr1 Hstep.
      destruct (IH m1 log1 m' log' k Hr1 Hin) as [H1|[e0 [segs [v [Hi [Hp Hh]]]]]].
      - exact (Hstep H1).
      - right; exists e0, segs, v; split; [right; exact Hi|split; assumption]. }
    destruct (next_back (split "." raw_key)) as [[local_key key_parts]|] eqn:Hnb;
      [|apply (Hlift m _ Hrun); intros H; left; exact H].
    destruct (toml_from_str raw_value) as [t|] eqn:Ht;
      [|apply (Hlift m _ Hrun); intros H; left; exact H].
    destruct (toml_try_into t) as [v|] eqn:Hc;
      [|apply (Hlift m _ Hrun); intros H; left; exact H].
    pose proof (insert_value_keys m key_parts local_key k v) as Hk.
    pose proof (next_back_inv _ _ _ Hnb) as Hsplit.
    destruct (insert_value m key_parts local_key v) as [m1 r]; simpl in Hk.
    assert (Hstep : In k (map fst m1) -> In k (map fst m) \/
              exists e0 segs v0, In e0 (e :: l') /\
                parse_entry TomlValue toml_from_str toml_try_into e0 = Some (segs, v0) /\
                hd_error segs = Some k).
    { intros H; destruct (Hk H) as [H'|H']; [left; exact H'|].
      right; exists e, (split "." raw_key), v; split; [left; reflexivity|split].
      - unfold parse_entry; rewrite Hs, Ht, Hc; reflexivity.
      - rewrite Hsplit; exact H'. }
    destruct r as [|err]; exact (Hlift m1 _ Hrun Hstep).
Qed.

End FlatteningKeys.

Section DriverLaws.

Variable TomlValue : Type.
Variable toml_from_str : string -> option TomlValue.
Variable toml_try_into : TomlValue -> option Value.
Variable parse_dynamic_config : string -> option DynamicConfig.
Variable host_lsp_config : string.
Variable host_initialization_options : list string.

Lemma resolve_servers_frame (meta : EditorMeta) (servers : list ServerId) :
  forall ctx : Context,
  Forall (fun server_id => exists srv cfg,
            id_get server_id (language_servers ctx) = Some srv /\
            assoc_get (srv_name srv) (server_configs ctx) = Some cfg) servers ->
  Forall (fun e => split_once "=" e <> None) (legacy_tokens host_initialization_options) ->
  let k := List.length (filter (fun server_id => match dynamic_projection ctx server_id with
                                                 | Some _ => false
                                                 | None => true
                                                 end) servers) in
  resolve_servers TomlValue toml_from_str toml_try_into host_initialization_options
    meta servers ctx =
  Done (map (resolve_one TomlValue toml_from_str toml_try_into host_initialization_options ctx)
          servers)
       (with_warn_log
          (with_exec_log ctx (exec_log ctx ++ repeat LspGetServerInitializationOptions k))
          (warn_log ctx ++
           List.concat (repeat (legacy_warnings TomlValue toml_from_str toml_try_into
                             host_initialization_options) k))).
Proof.
  induction servers as [|server_id rest IH]; intros ctx Hreg Hall k; subst k.
  - simpl; rewrite !app_nil_r, with_logs_same; reflexivity.
  - inversion Hreg as [|? ? [srv [cfg [Hs Hc]]] Hreg']; subst.
    simpl resolve_servers.
    rewrite (bind_Done _ _ _ _ _
               (resolve_server_spec TomlValue toml_from_str toml_try_into
                  host_initialization_options meta server_id ctx srv cfg Hs Hc Hall)).
    destruct (dynamic_projection ctx server_id) as [d|] eqn:Hd.
    + rewrite (bind_Done _ _ _ _ _ (IH ctx Hreg' Hall)).
      simpl; rewrite Hd; reflexivity.
    + rewrite (bind_Done _ _ _ _ _
                 (IH (after_legacy TomlValue toml_from_str toml_try_into
                        host_initialization_options ctx) Hreg' Hall)).
      simpl; rewrite Hd.
      change (dynamic_projection (after_legacy TomlValue toml_from_str toml_try_into
                                    host_initialization_options ctx))
        with (dynamic_projection ctx).
      unfold after_legacy at 2; rewrite with_logs_twice; simpl.
      rewrite <- !app_assoc; reflexivity.
Qed.

(** X9: the legacy request reads the editor's tokens only up to the first
    [map-end]: whatever follows it is ignored. *)
Theorem X9_legacy_stops_at_map_end (meta : EditorMeta) (t rest : list string) (ctx : Context) :
  ~ In "map-end" t ->
  request_legacy_initialization_options_from_kakoune TomlValue toml_from_str toml_try_into
    (t ++ "map-end" :: rest) meta ctx =
  request_legacy_initialization_options_from_kakoune TomlValue toml_from_str toml_try_into
    t meta ctx.
Proof.
  intros Hn.
  assert (Ht : Forall (fun y => negb (String.eqb y "map-end") = true) t).
  { apply Forall_forall; intros y Hy.
    destruct (String.eqb_spec y "map-end") as [->|Hne]; [contradiction|reflexivity]. }
  unfold request_legacy_initialization_options_from_kakoune.
  rewrite (take_while_upto _ t rest "map-end" Ht eq_refl), (take_while_all _ t Ht).
  reflexivity.
Qed.

(** X10: in the legacy configuration mode the recorder only replaces the
    dynamic configuration: the per-request server overrides are not applied
    and nothing is sent to the editor. *)
Theorem X10_record_legacy_mode (meta : EditorMeta) (config : string) (ctx : Context)
    (cfg : DynamicConfig) :
  parse_dynamic_config config = Some cfg ->
  is_using_legacy_toml ctx = true ->
  record_dynamic_config parse_dynamic_config meta config ctx =
    Done tt (with_dynamic_config ctx cfg).
Proof.
  intros Hp Hl; unfold record_dynamic_config; rewrite Hp.
  unfold bind, modify, get; simpl; rewrite Hl; reflexivity.
Qed.

(** X11: outside the legacy mode, when every server named by the request has
    a cached route to a registered server and no two of them share a route,
    the recorder replaces the dynamic configuration, then sets the settings
    of each routed server to the request's settings (its name kept); every
    other server is left as it was, and nothing is sent to the editor. *)
Theorem X11_record_meta_overrides (meta : EditorMeta) (config : string) (ctx : Context)
    (cfg : DynamicConfig) :
  parse_dynamic_config config = Some cfg ->
  is_using_legacy_toml ctx = false ->
  Forall (fun p => exists sid srv,
            route_get (fst p, meta_root (snd p)) (route_cache ctx) = Some sid /\
            id_get sid (language_servers ctx) = Some srv) (meta_language_server meta) ->
  NoDup (map (fun p => route_get (fst p, meta_root (snd p)) (route_cache ctx))
           (meta_language_server meta)) ->
  exists ctx',
    record_dynamic_config parse_dynamic_config meta config ctx = Done tt ctx' /\
    dynamic_config ctx' = cfg /\
    exec_log ctx' = exec_log ctx /\
    (forall sid, ~ In (Some sid) (map (fun p => route_get (fst p, meta_root (snd p))
                                                   (route_cache ctx))
                                   (meta_language_server meta)) ->
       id_get sid (language_servers ctx') = id_get sid (language_servers ctx)) /\
    (forall p sid srv, In p (meta_language_server meta) ->
       route_get (fst p, meta_root (snd p)) (route_cache ctx) = Some sid ->
       id_get sid (language_servers ctx) = Some srv ->
       id_get sid (language_servers ctx') =
         Some {| srv_name := srv_name srv; srv_settings := meta_settings (snd p) |}).
Proof.
  intros Hp Hl Hall Hnd; unfold record_dynamic_config; rewrite Hp.
  unfold bind at 1, modify; simpl.
  unfold bind, get; simpl; rewrite Hl; simpl.
  destruct (apply_meta_overrides_spec (meta_language_server meta) (with_dynamic_config ctx cfg)
              Hall Hnd) as [ctx' [Hrun [Hdyn [_ [Hkeep Hset]]]]].
  exists ctx'; split; [exact Hrun|split; [exact Hdyn|split]].
  - exact (apply_meta_overrides_exec_log _ _ _ Hrun).
  - split; [exact Hkeep|exact Hset].
Qed.

(** X12: outside the legacy mode, a server named by the request with no
    cached route makes the recorder panic, after the dynamic configuration
    has already been replaced. *)
Theorem X12_record_missing_route_panics (meta : EditorMeta) (config : string) (ctx : Context)
    (cfg : DynamicConfig) (p : string * MetaServer) :
  parse_dynamic_config config = Some cfg ->
  is_using_legacy_toml ctx = false ->
  In p (meta_language_server meta) ->
  route_get (fst p, meta_root (snd p)) (route_cache ctx) = None ->
  exists ctx',
    record_dynamic_config parse_dynamic_config meta config ctx = Panicked ctx' /\
    dynamic_config ctx' = cfg.
Proof.
  intros Hp Hl Hin Hr; unfold record_dynamic_config; rewrite Hp.
  unfold bind at 1, modify; simpl.
  unfold bind, get; simpl; rewrite Hl; simpl.
  destruct (apply_meta_overrides_missing_route (meta_language_server meta)
              (with_dynamic_config ctx cfg) (ex_intro _ p (conj Hin Hr)))
    as [ctx' [Hrun Hdyn]].
  exists ctx'; split; [exact Hrun|exact Hdyn].
Qed.

(** X13: a whole pass, once the dynamic configuration is recorded, changes
    nothing but the two logs: one legacy request is sent per server without
    a dynamic value, and each such request appends the legacy warnings
    again. *)
Theorem X13_pass_only_appends_logs (servers : list ServerId) (meta : EditorMeta)
    (ctx ctx1 : Context) :
  request_dynamic_configuration_from_kakoune parse_dynamic_config host_lsp_config meta ctx =
    Done tt ctx1 ->
  Forall (fun server_id => exists srv cfg,
            id_get server_id (language_servers ctx1) = Some srv /\
            assoc_get (srv_name srv) (server_configs ctx1) = Some cfg) servers ->
  Forall (fun e => split_once "=" e <> None) (legacy_tokens host_initialization_options) ->
  exists res,
    let k := List.length (filter (fun server_id => match dynamic_projection ctx1 server_id with
                                                   | Some _ => false
                                                   | None => true
                                                   end) servers) in
    request_initialization_options_from_kakoune TomlValue toml_from_str toml_try_into
      parse_dynamic_config host_lsp_config host_initialization_options servers meta ctx =
    Done res
      (with_warn_log
         (with_exec_log ctx1
            (exec_log ctx ++ LspGetConfig :: repeat LspGetServerInitializationOptions k))
         (warn_log ctx1 ++
          List.concat (repeat (legacy_warnings TomlValue toml_from_str toml_try_into
                                 host_initialization_options) k))).
Proof.
  intros Hdyn Hreg Hall.
  rewrite (request_init_after_dynamic TomlValue toml_from_str toml_try_into parse_dynamic_config
             host_lsp_config host_initialization_options servers meta ctx ctx1 Hdyn).
  rewrite (resolve_servers_frame meta servers ctx1 Hreg Hall).
  eexists; simpl.
  rewrite (request_dynamic_exec_log parse_dynamic_config host_lsp_config meta ctx ctx1 Hdyn).
  rewrite <- app_assoc; reflexivity.
Qed.

(** X14: when the configuration text does not parse, the whole request
    panics before any server is resolved: the editor has been asked for the
    configuration and shown the error, and the dynamic configuration is
    unchanged. *)
Theorem X14_request_invalid_config_panics (servers : list ServerId) (meta : EditorMeta)
    (ctx : Context) :
  parse_dynamic_config host_lsp_config = None ->
  exists ctx',
    request_initialization_options_from_kakoune TomlValue toml_from_str toml_try_into
      parse_dynamic_config host_lsp_config host_initialization_options servers meta ctx =
      Panicked ctx' /\
    dynamic_config ctx' = dynamic_config ctx /\
    exec_log ctx' = exec_log ctx ++ [LspGetConfig; LspShowError].
Proof.
  intros Hp.
  unfold request_initialization_options_from_kakoune, request_dynamic_configuration_from_kakoune,
    record_dynamic_config.
  rewrite Hp.
  eexists; split; [reflexivity|split; [reflexivity|]].
  simpl; rewrite <- app_assoc; reflexivity.
Qed.

(** X15: a server whose dynamic settings yield a value for its section is
    answered from them without asking the editor for the legacy override,
    and the context is left unchanged; no condition on the legacy tokens is
    needed.  (The section name comes from the server's static entry, so the
    hypothesis implies that entry exists.) *)
Theorem X15_dynamic_hit_no_request (meta : EditorMeta) (server_id : ServerId) (ctx : Context)
    (srv : ServerSettings) (d : Value) :
  id_get server_id (language_servers ctx) = Some srv ->
  dynamic_projection ctx server_id = Some d ->
  resolve_server TomlValue toml_from_str toml_try_into host_initialization_options
    meta server_id ctx = Done (Some d) ctx.
Proof.
  intros Hs Hd.
  unfold resolve_server.
  rewrite (bind_Done _ _ _ _ _ (server_spec _ _ _ Hs)).
  rewrite (bind_Done _ _ _ _ _ (get_spec ctx)).
  rewrite (bind_Done _ _ _ _ _ (configured_section_spec meta server_id _ ctx srv Hs)).
  unfold dynamic_projection, dynamic_settings in Hd; rewrite Hs in Hd.
  rewrite Hd; reflexivity.
Qed.

(** X16: a registered server with no entry in the static server table and
    no legacy override makes the loop panic at the static lookup, after one
    legacy request. *)
Theorem X16_missing_static_config_panics (meta : EditorMeta) (server_id : ServerId)
    (ctx : Context) (srv : ServerSettings) :
  id_get server_id (language_servers ctx) = Some srv ->
  assoc_get (srv_name srv) (server_configs ctx) = None ->
  Forall (fun e => split_once "=" e <> None) (legacy_tokens host_initialization_options) ->
  legacy_override TomlValue toml_from_str toml_try_into host_initialization_options = None ->
  resolve_server TomlValue toml_from_str toml_try_into host_initialization_options
    meta server_id ctx =
  Panicked (after_legacy TomlValue toml_from_str toml_try_into host_initialization_options ctx).
Proof.
  intros Hs Hc Hall Hlo.
  unfold resolve_server.
  rewrite (bind_Done _ _ _ _ _ (server_spec _ _ _ Hs)).
  rewrite (bind_Done _ _ _ _ _ (get_spec ctx)).
  rewrite (bind_Done _ _ _ _ _ (configured_section_spec meta server_id _ ctx srv Hs)).
  assert (Hsec : section_name ctx (srv_name srv) = None)
    by (unfold section_name; rewrite Hc; reflexivity).
  rewrite Hsec.
  assert (Hnone : forall o, project o None = None) by (intros [o|]; reflexivity).
  rewrite Hnone.
  rewrite (bind_Done _ _ _ _ _
             (request_legacy_spec TomlValue toml_from_str toml_try_into
                host_initialization_options meta ctx Hall)).
  rewrite Hlo.
  set (ctx' := after_legacy TomlValue toml_from_str toml_try_into host_initialization_options ctx).
  assert (Hs' : id_get server_id (language_servers ctx') = Some srv) by exact Hs.
  assert (Hc' : assoc_get (srv_name srv) (server_configs ctx') = None) by exact Hc.
  rewrite (bind_Done _ _ _ _ _ (server_spec _ _ _ Hs')).
  rewrite (bind_Done _ _ _ _ _ (get_spec ctx')).
  unfold bind at 1, unwrap; rewrite Hc'; reflexivity.
Qed.

(** X17: a server id missing from the server table makes both the section
    projector and the per-server resolution panic at once, before anything
    is sent to the editor. *)
Theorem X17_unknown_server_panics (meta : EditorMeta) (server_id : ServerId) (ctx : Context)
    (settings : option Value) :
  id_get server_id (language_servers ctx) = None ->
  configured_section meta server_id settings ctx = Panicked ctx /\
  resolve_server TomlValue toml_from_str toml_try_into host_initialization_options
    meta server_id ctx = Panicked ctx.
Proof.
  intros H; split;
    [unfold configured_section|unfold resolve_server];
    unfold server, bind, get, unwrap; simpl; rewrite H; reflexivity.
Qed.

(** X18: a legacy token before [map-end] that has no [=] makes the legacy
    request panic, after the request was sent to the editor; the warnings
    the entries before it emitted stay in the log. *)
Theorem X18_legacy_panic_keeps_warnings (meta : EditorMeta) (ctx : Context)
    (t rest : list string) (e : string) (m : Map) (log : list Warning) :
  legacy_tokens host_initialization_options = t ++ e :: rest ->
  split_once "=" e = None ->
  explode_str_to_str_map TomlValue toml_from_str toml_try_into t = Some (m, log) ->
  request_legacy_initialization_options_from_kakoune TomlValue toml_from_str toml_try_into
    host_initialization_options meta ctx =
  Panicked (with_warn_log (with_exec_log ctx (exec_log ctx ++ [LspGetServerInitializationOptions]))
              (warn_log ctx ++ log)).
Proof.
  intros Htok He Hm.
  assert (Hp : explode_loop TomlValue toml_from_str toml_try_into (t ++ e :: rest) [] [] =
               ExplodePanicked log).
  { rewrite explode_loop_app, (explode_map_some TomlValue toml_from_str toml_try_into t m log Hm).
    simpl; rewrite He; reflexivity. }
  unfold request_legacy_initialization_options_from_kakoune.
  fold (legacy_tokens host_initialization_options); rewrite Htok.
  unfold bind at 1, exec, modify.
  destruct (t ++ e :: rest) as [|a b] eqn:Hl; [destruct t; discriminate|].
  unfold bind, explode_str_to_str_map_call; rewrite Hp; reflexivity.
Qed.

End DriverLaws.

(** X19: the flattening invents no key: every top-level key of its result
    is the first segment of an entry that parsed and converted. *)
Theorem X19_explode_keys_from_entries (TomlValue : Type)
    (toml_from_str : string -> option TomlValue) (toml_try_into : TomlValue -> option Value)
    (l : list string) (m : Map) (log : list Warning) (k : string) :
  explode_str_to_str_map TomlValue toml_from_str toml_try_into l = Some (m, log) ->
  In k (map fst m) ->
  exists e segs v,
    In e l /\ parse_entry TomlValue toml_from_str toml_try_into e = Some (segs, v) /\
    hd_error segs = Some k.
Proof.
  intros Hr Hin.
  destruct (explode_loop_keys TomlValue toml_from_str toml_try_into l [] [] m log k
              (explode_map_some TomlValue toml_from_str toml_try_into l m log Hr) Hin)
    as [[]|H]; exact H.
Qed.

(** X20: [insert_value] succeeds exactly when its walk meets only objects
    or missing keys and, if it stays on existing objects, the leaf is new. *)
Theorem X20_insert_value_ok_iff (m : Map) (path : list string) (leaf : string) (v : Value) :
  snd (insert_value m path leaf v) = Ok <-> walkable m path leaf.
Proof.
  split; [apply insert_value_ok_walkable|].
  intros Hw; destruct (insert_value_walkable_ok m path leaf v Hw) as [m' [-> _]]; reflexivity.
Qed.

Lemma insert_value_nil_ok' (path : list string) (leaf : string) (v : Value) :
  snd (insert_value [] path leaf v) = Ok.
Proof.
  destruct (insert_value_walkable_ok [] path leaf v (walkable_nil path leaf)) as [m' [-> _]].
  reflexivity.
Qed.

Lemma insert_value_replaced_prev (m : Map) (path : list string) (leaf : string) (v old : Value) :
  snd (insert_value m path leaf v) = Err (ReplacedOld old) -> lookup_path m path leaf = Some old.
Proof.
  revert m; induction path as [|k path' IH]; intros m H; simpl in *.
  - pose proof (map_insert_old m leaf v) as Ho.
    destruct (map_insert m leaf v) as [m' [o|]]; simpl in *; [|discriminate].
    injection H as ->; symmetry; exact Ho.
  - destruct (assoc_get k m) as [v0|] eqn:Hk.
    + rewrite (entry_or_insert_present _ _ _ _ Hk) in H.
      destruct v0 as [| | | | |inner]; try discriminate.
      apply IH; destruct (insert_value inner path' leaf v); exact H.
    + rewrite (entry_or_insert_absent _ _ _ Hk) in H.
      pose proof (insert_value_nil_ok' path' leaf v) as Hn.
      destruct (insert_value [] path' leaf v) as [inner' r]; simpl in *.
      rewrite Hn in H; discriminate.
Qed.

(** X21: when [insert_value] reports a replaced value, that value is the
    one the tree held at the key before, and the new value is there now. *)
Theorem X21_insert_value_replaced (m : Map) (path : list string) (leaf : string)
    (v old : Value) :
  snd (insert_value m path leaf v) = Err (ReplacedOld old) ->
  lookup_path m path leaf = Some old /\
  lookup_path (fst (insert_value m path leaf v)) path leaf = Some v.
Proof.
  intros H; split; [exact (insert_value_replaced_prev m path leaf v old H)|].
  destruct (blocking_segment m path) as [k|] eqn:Hb.
  - rewrite (insert_value_blocked m path leaf v k Hb) in H; discriminate.
  - apply insert_value_unblocked_lookup; exact Hb.
Qed.

(** Every top-level value of a tree is an object. *)
Definition all_objects (m : Map) : Prop :=
  Forall (fun kv => exists o, snd kv = Object o) m.

Lemma map_insert_all_objects (m : Map) (k : string) (o : Map) :
  all_objects m -> all_objects (fst (map_insert m k (Object o))).
Proof.
  unfold all_objects; induction m as [|[k' v'] rest IH]; intros H; simpl.
  - constructor; [exists o; reflexivity|constructor].
  - inversion H as [|? ? Hv Hrest]; subst.
    destruct (String.eqb k k'); simpl.
    + constructor; [exists o; reflexivity|exact Hrest].
    + pose proof (IH Hrest) as IH'.
      destruct (map_insert rest k (Object o)) as [rest' old]; simpl in *.
      constructor; [exact Hv|exact IH'].
Qed.

Lemma insert_value_all_objects (m : Map) (path : list string) (leaf : string) (o : Map) :
  all_objects m -> all_objects (fst (insert_value m path leaf (Object o))).
Proof.
  intros H; destruct path as [|k path']; simpl.
  - pose proof (map_insert_all_objects m leaf o H) as H'.
    destruct (map_insert m leaf (Object o)) as [m' [old|]]; exact H'.
  - assert (Htarget : all_objects (fst (entry_or_insert m k (Object [])))).
    { unfold entry_or_insert; destruct (assoc_get k m); simpl; [exact H|].
      unfold all_objects; apply Forall_app; split; [exact H|].
      constructor; [exists []; reflexivity|constructor]. }
    destruct (entry_or_insert m k (Object [])) as [target1 cur]; simpl in Htarget.
    destruct cur as [| | | | |inner]; try exact Htarget.
    destruct (insert_value inner path' leaf (Object o)) as [inner' r]; simpl.
    apply map_insert_all_objects; exact Htarget.
Qed.

Section ObjectValues.

Variable TomlValue : Type.
Variable toml_from_str : string -> option TomlValue.
Variable toml_try_into : TomlValue -> option Value.

Lemma explode_loop_all_objects :
  (forall r t v, toml_from_str r = Some t -> toml_try_into t = Some v -> exists o, v = Object o) ->
  forall l m log m' log',
  all_objects m ->
  explode_loop TomlValue toml_from_str toml_try_into l m log = Exploded m' log' ->
  all_objects m'.
Proof.
  intros Hobj l; induction l as [|e l' IH]; intros m log m' log' Hm Hrun; simpl in Hrun.
  - injection Hrun as <- <-; exact Hm.
  - destruct (split_once "=" e) as [[raw_key raw_value]|]; [|discriminate].
    destruct (next_back (split "." raw_key)) as [[local_key key_parts]|];
      [|exact (IH _ _ _ _ Hm Hrun)].
    destruct (toml_from_str raw_value) as [t|] eqn:Ht; [|exact (IH _ _ _ _ Hm Hrun)].
    destruct (toml_try_into t) as [v|] eqn:Hc; [|exact (IH _ _ _ _ Hm Hrun)].
    destruct (Hobj _ _ _ Ht Hc) as [o ->].
    pose proof (insert_value_all_objects m key_parts local_key o Hm) as Hm1.
    destruct (insert_value m key_parts local_key (Object o)) as [m1 [|err]];
      exact (IH _ _ _ _ Hm1 Hrun).
Qed.

(** X22: with a TOML parser that yields only tables (as [toml::from_str],
    which reads a document), every top-level value of the flattened tree
    is an object; a [NotAnObject] conflict can only arise inside a parsed
    value, never at the first segment of a key. *)
Theorem X22_explode_top_level_objects (l : list string) (m : Map) (log : list Warning) :
  (forall r t v, toml_from_str r = Some t -> toml_try_into t = Some v -> exists o, v = Object o) ->
  explode_str_to_str_map TomlValue toml_from_str toml_try_into l = Some (m, log) ->
  all_objects m /\
  (forall k inner, assoc_get k m = Some inner -> exists o, inner = Object o).
Proof.
  intros Hobj Hr.
  pose proof (explode_loop_all_objects Hobj l [] [] m log (Forall_nil _)
                (explode_map_some TomlValue toml_from_str toml_try_into l m log Hr)) as Hm.
  split; [exact Hm|].
  clear Hr; induction m as [|[k' v'] rest IH]; intros k inner Hk; simpl in Hk; [discriminate|].
  inversion Hm as [|? ? Hv Hrest]; subst.
  destruct (String.eqb k k'); [injection Hk as <-; exact Hv|exact (IH Hrest k inner Hk)].
Qed.

End ObjectValues.

(** * Concrete instances of the further properties *)

Lemma X2_witness :
  lookup_path (fst (insert_value [("a", Object [("b", Number 1)])] ["a"] "c" (Number 2)))
    ["a"] "b" =
  lookup_path [("a", Object [("b", Number 1)])] ["a"] "b".
Proof.
  apply (X2_insert_value_ok_other [("a", Object [("b", Number 1)])] ["a"] "c" (Number 2)
           ["a"] "b").
  - reflexivity.
  - split; reflexivity.
Defined.

Lemma X6_witness :
  flatten_doc ["a=x=1"; "b=zz"] = Some ([("a", Object [("x", Number 1)])], [WarnParse "zz"]) /\
  List.length [WarnParse "zz"] <= List.length ["a=x=1"; "b=zz"].
Proof.
  split; [reflexivity|].
  apply (X6_explode_warning_bound Value toml_doc_from_str toml_doc_try_into ["a=x=1"; "b=zz"]
           [("a", Object [("x", Number 1)])] [WarnParse "zz"]).
  reflexivity.
Defined.

Lemma X7_witness :
  (toml_doc_from_str "zz" = None ->
   explode_loop Value toml_doc_from_str toml_doc_try_into ["a=zz"; "b=1"] [] [] =
   explode_loop Value toml_doc_from_str toml_doc_try_into ["b=1"] [] ([] ++ [WarnParse "zz"])) /\
  (forall t, toml_doc_from_str "zz" = Some t -> toml_doc_try_into t = None ->
   explode_loop Value toml_doc_from_str toml_doc_try_into ["a=zz"; "b=1"] [] [] =
   explode_loop Value toml_doc_from_str toml_doc_try_into ["b=1"] [] ([] ++ [WarnConvert "zz"])).
Proof.
  apply (X7_explode_skips_bad_value Value toml_doc_from_str toml_doc_try_into "a=zz" ["b=1"] [] []
           "a" "zz").
  reflexivity.
Defined.

Lemma X8_witness :
  exists m' log',
    explode_str_to_str_map Value toml_doc_from_str toml_doc_try_into
      (["a.b=x=1"] ++ ["a.b=x=2"]) = Some (m', log') /\
    lookup_key m' ["a"; "b"] = Some (Object [("x", Number 2)]).
Proof.
  apply (X8_explode_last_write_wins Value toml_doc_from_str toml_doc_try_into ["a.b=x=1"]
           "a.b=x=2" [("a", Object [("b", Object [("x", Number 1)])])] [] ["a"; "b"]
           (Object [("x", Number 2)])).
  - reflexivity.
  - reflexivity.
  - reflexivity.
Defined.

Lemma X9_witness :
  request_legacy_initialization_options_from_kakoune Value toml_doc_from_str toml_doc_try_into
    (["a=1"] ++ "map-end" :: ["oops"]) meta0 ctx_two =
  request_legacy_initialization_options_from_kakoune Value toml_doc_from_str toml_doc_try_into
    ["a=1"] meta0 ctx_two.
Proof.
  apply (X9_legacy_stops_at_map_end Value toml_doc_from_str toml_doc_try_into meta0
           ["a=1"] ["oops"] ctx_two).
  simpl; intros [H|[]]; discriminate H.
Defined.

Lemma X10_witness :
  record_dynamic_config toy_parse_config meta_rls rls_config_text ctx_legacy =
    Done tt (with_dynamic_config ctx_legacy rls_dynamic_config).
Proof.
  apply (X10_record_legacy_mode toy_parse_config meta_rls rls_config_text ctx_legacy rls_dynamic_config).
  - reflexivity.
  - reflexivity.
Defined.

Lemma X11_witness :
  exists ctx',
    record_dynamic_config toy_parse_config meta_rls rls_config_text ctx_routed = Done tt ctx' /\
    dynamic_config ctx' = rls_dynamic_config /\
    exec_log ctx' = exec_log ctx_routed /\
    (forall sid, ~ In (Some sid) (map (fun p => route_get (fst p, meta_root (snd p))
                                                   (route_cache ctx_routed))
                                   (meta_language_server meta_rls)) ->
       id_get sid (language_servers ctx') = id_get sid (language_servers ctx_routed)) /\
    (forall p sid srv, In p (meta_language_server meta_rls) ->
       route_get (fst p, meta_root (snd p)) (route_cache ctx_routed) = Some sid ->
       id_get sid (language_servers ctx_routed) = Some srv ->
       id_get sid (language_servers ctx') =
         Some {| srv_name := srv_name srv; srv_settings := meta_settings (snd p) |}).
Proof.
  apply (X11_record_meta_overrides toy_parse_config meta_rls rls_config_text ctx_routed rls_dynamic_config).
  - reflexivity.
  - reflexivity.
  - constructor; [|constructor].
    exists 0, {| srv_name := "rls"; srv_settings := None |}; split; reflexivity.
  - constructor; [intros []|constructor].
Defined.

Lemma X12_witness :
  exists ctx',
    record_dynamic_config toy_parse_config meta_unrouted rls_config_text ctx_routed = Panicked ctx' /\
    dynamic_config ctx' = rls_dynamic_config.
Proof.
  apply (X12_record_missing_route_panics toy_parse_config meta_unrouted rls_config_text ctx_routed
           rls_dynamic_config ("rls", {| meta_root := "/q"; meta_settings := None |})).
  - reflexivity.
  - reflexivity.
  - left; reflexivity.
  - reflexivity.
Defined.

Lemma X13_witness :
  exists res,
    let k := List.length (filter (fun server_id =>
               match dynamic_projection
                       (with_exec_log (with_dynamic_config ctx_two empty_dynamic_config)
                          [LspGetConfig]) server_id with
               | Some _ => false
               | None => true
               end) [0; 1]) in
    request_initialization_options_from_kakoune Value toml_doc_from_str toml_doc_try_into
      toy_parse_config "" ["x=1"; "y=zz"; "map-end"] [0; 1] meta0 ctx_two =
    Done res
      (with_warn_log
         (with_exec_log
            (with_exec_log (with_dynamic_config ctx_two empty_dynamic_config) [LspGetConfig])
            (exec_log ctx_two ++ LspGetConfig :: repeat LspGetServerInitializationOptions k))
         (warn_log (with_exec_log (with_dynamic_config ctx_two empty_dynamic_config)
                      [LspGetConfig]) ++
          List.concat (repeat (legacy_warnings Value toml_doc_from_str toml_doc_try_into
                                 ["x=1"; "y=zz"; "map-end"]) k))).
Proof.
  apply (X13_pass_only_appends_logs Value toml_doc_from_str toml_doc_try_into toy_parse_config
           "" ["x=1"; "y=zz"; "map-end"] [0; 1] meta0 ctx_two
           (with_exec_log (with_dynamic_config ctx_two empty_dynamic_config) [LspGetConfig])).
  - reflexivity.
  - repeat constructor.
    + exists {| srv_name := "rls"; srv_settings := None |}, rls_config; split; reflexivity.
    + exists {| srv_name := "pyls"; srv_settings := None |}, pyls_config; split; reflexivity.
  - simpl; constructor; [discriminate|constructor; [discriminate|constructor]].
Defined.

Lemma X14_witness :
  exists ctx',
    request_initialization_options_from_kakoune Value toml_doc_from_str toml_doc_try_into
      toy_parse_config "bad" [] [0; 1] meta0 ctx_two = Panicked ctx' /\
    dynamic_config ctx' = dynamic_config ctx_two /\
    exec_log ctx' = exec_log ctx_two ++ [LspGetConfig; LspShowError].
Proof.
  apply (X14_request_invalid_config_panics Value toml_doc_from_str toml_doc_try_into toy_parse_config
           "bad" [] [0; 1] meta0 ctx_two).
  reflexivity.
Defined.

Lemma X15_witness :
  resolve_server Value toml_doc_from_str toml_doc_try_into ["x=1"; "map-end"] meta0 0
    (with_dynamic_config ctx_two rls_dynamic_config) =
  Done (Some (Number 1)) (with_dynamic_config ctx_two rls_dynamic_config).
Proof.
  apply (X15_dynamic_hit_no_request Value toml_doc_from_str toml_doc_try_into ["x=1"; "map-end"]
           meta0 0 (with_dynamic_config ctx_two rls_dynamic_config)
           {| srv_name := "rls"; srv_settings := None |} (Number 1)).
  - reflexivity.
  - reflexivity.
Defined.

Lemma X16_witness :
  resolve_server Value toml_doc_from_str toml_doc_try_into [] meta0 2
    (with_language_servers ctx_two [(2, {| srv_name := "clangd"; srv_settings := None |})]) =
  Panicked (after_legacy Value toml_doc_from_str toml_doc_try_into []
              (with_language_servers ctx_two
                 [(2, {| srv_name := "clangd"; srv_settings := None |})])).
Proof.
  apply (X16_missing_static_config_panics Value toml_doc_from_str toml_doc_try_into [] meta0 2
           (with_language_servers ctx_two [(2, {| srv_name := "clangd"; srv_settings := None |})])
           {| srv_name := "clangd"; srv_settings := None |}).
  - reflexivity.
  - reflexivity.
  - simpl; constructor.
  - reflexivity.
Defined.

Lemma X17_witness :
  configured_section meta0 5 None ctx_two = Panicked ctx_two /\
  resolve_server Value toml_doc_from_str toml_doc_try_into [] meta0 5 ctx_two = Panicked ctx_two.
Proof.
  apply (X17_unknown_server_panics Value toml_doc_from_str toml_doc_try_into [] meta0 5 ctx_two None).
  reflexivity.
Defined.

Lemma X18_witness :
  request_legacy_initialization_options_from_kakoune Value toml_doc_from_str toml_doc_try_into
    ["a=zz"; "oops"; "map-end"] meta0 ctx_two =
  Panicked (with_warn_log
              (with_exec_log ctx_two (exec_log ctx_two ++ [LspGetServerInitializationOptions]))
              (warn_log ctx_two ++ [WarnParse "zz"])).
Proof.
  apply (X18_legacy_panic_keeps_warnings Value toml_doc_from_str toml_doc_try_into
           ["a=zz"; "oops"; "map-end"] meta0 ctx_two ["a=zz"] [] "oops" [] [WarnParse "zz"]).
  - reflexivity.
  - reflexivity.
  - reflexivity.
Defined.

Lemma X19_witness :
  exists e segs v,
    In e ["a.b=x=1"; "c=zz"] /\
    parse_entry Value toml_doc_from_str toml_doc_try_into e = Some (segs, v) /\
    hd_error segs = Some "a".
Proof.
  apply (X19_explode_keys_from_entries Value toml_doc_from_str toml_doc_try_into
           ["a.b=x=1"; "c=zz"] [("a", Object [("b", Object [("x", Number 1)])])]
           [WarnParse "zz"] "a").
  - reflexivity.
  - left; reflexivity.
Defined.

Lemma X21_witness :
  lookup_path [("a", Object [("b", Number 1)])] ["a"] "b" = Some (Number 1) /\
  lookup_path (fst (insert_value [("a", Object [("b", Number 1)])] ["a"] "b" (Number 3)))
    ["a"] "b" = Some (Number 3).
Proof.
  apply (X21_insert_value_replaced [("a", Object [("b", Number 1)])] ["a"] "b" (Number 3)
           (Number 1)).
  reflexivity.
Defined.

Lemma X22_witness :
  all_objects [("a", Object [("b", Object [("x", Number 1)])]); ("c", Object [("y", Bool true)])] /\
  (forall k inner,
     assoc_get k [("a", Object [("b", Object [("x", Number 1)])]); ("c", Object [("y", Bool true)])] =
       Some inner -> exists o, inner = Object o).
Proof.
  apply (X22_explode_top_level_objects Value toml_doc_from_str toml_doc_try_into
           ["a.b=x=1"; "c=y=true"; "d=1"]
           [("a", Object [("b", Object [("x", Number 1)])]); ("c", Object [("y", Bool true)])]
           [WarnParse "1"]).
  - intros r t v Ht Hc; unfold toml_doc_from_str in Ht; unfold toml_doc_try_into in Hc.
    injection Hc as <-.
    destruct (toml_lines (split (ascii_of_nat 10) r) []) as [o|]; [|discriminate].
    injection Ht as <-; exists o; reflexivity.
  - reflexivity.
Defined.
